(** * MediFind: the staged hospital search of [get_hospitals.py]

    A shallow embedding of [src/get_hospitals.py] and the properties of its
    fallback search.

    Modelling conventions.
    - Numbers.  Coordinates (overpy's [Decimal], geopy's [float]) and
      distances are modelled by the rational number they denote, in [Q].
      Python's [==] on them is [Qeq_bool], truthiness is "different from
      zero".  Comparison of floats is exact, so ordering facts carry over;
      rounding of arithmetic is not modelled.
    - Dictionaries.  [coords_cache] is a [gmap] keyed by the address string,
      [reverse_cache] a [gmap] keyed by the coordinate pair in canonical form
      ([Qc]), so that numerically equal keys are the same key, as in a Python
      dict.
    - External services.  Overpass, the forward and the reverse geocoder are
      functions of the history of calls made so far; every call is recorded,
      with its outcome, in [calls].  A service may therefore answer the same
      request differently at different times.
    - Exceptions.  A service may raise; the code's [try]/[except] blocks are
      written out.  [geodesic] is taken to be total (it raises on a latitude
      outside [-90, 90] only, which neither Overpass nor the geocoder
      returns).  The only exception that escapes is the [AttributeError] of
      [filter_by_address] on a facility whose address is [None].
    - The thread pool.  The five workers of [node_to_medical_facility] talk
      to the reverse geocoder one at a time (the semaphore of line 41) and
      their results are written to the facilities by the main thread.  The
      tasks are run here one after the other in the order of submission.
      The properties proved below of the search stages do not depend on that
      order, and the one about the write-back loop holds for results
      arriving in any order.
    - Logging and timing calls have no influence on results and are left out. *)

From Stdlib Require Import QArith Qabs Qcanon DecimalString.
From stdpp Require Import gmap strings list.

Local Open Scope string_scope.
Local Open Scope Z_scope.
Local Open Scope list_scope.

(** ** Python values *)

(** A coordinate pair [(lat, lon)]. *)
Abbreviation coords := (Q * Q)%type.

(** [(a, b) == (c, d)] on numeric tuples. *)
Definition coords_eqb (a b : coords) : bool :=
  Qeq_bool a.1 b.1 && Qeq_bool a.2 b.2.

(** Truthiness of a number: [bool(x)] is [x != 0]. *)
Definition truthy_num (x : option Q) : bool :=
  match x with
  | Some q => negb (Qeq_bool q 0)
  | None => false
  end.

(** Truthiness of an optional string: neither [None] nor [""]. *)
Definition truthy_str (x : option string) : bool :=
  match x with
  | Some EmptyString => false
  | Some _ => true
  | None => false
  end.

(** [sep.join(parts)] *)
Fixpoint join (sep : string) (parts : list string) : string :=
  match parts with
  | [] => ""
  | [p] => p
  | p :: rest => p +:+ sep +:+ join sep rest
  end.

(** [needle in haystack] on strings: [needle] occurs as a contiguous block. *)
Fixpoint substring_in (needle haystack : string) : bool :=
  String.prefix needle haystack ||
  match haystack with
  | EmptyString => false
  | String _ rest => substring_in needle rest
  end.

(** Exceptions that can leave a function of the module. *)
Inductive exn : Type := AttributeError.

Inductive result (A : Type) : Type :=
  | Ok (a : A)
  | Raised (e : exn).
Arguments Ok {A} a.
Arguments Raised {A} e.

(** ** Data model *)

(** An OSM node as overpy hands it over. *)
Record node : Type := Node {
  node_lat : Q;
  node_lon : Q;
  node_tags : gmap string string
}.

(** The facility dictionary built at lines 77-85; the fields are its keys. *)
Record facility : Type := Facility {
  fac_name : string;
  fac_type : string;
  fac_lat : Q;
  fac_lon : Q;
  fac_address : option string;
  fac_found_in : string;
  fac_distance : option Q
}.

Definition set_address (f : facility) (a : string) : facility :=
  {| fac_name := fac_name f; fac_type := fac_type f;
     fac_lat := fac_lat f; fac_lon := fac_lon f;
     fac_address := Some a;
     fac_found_in := fac_found_in f; fac_distance := fac_distance f |}.

(** The three query shapes sent to Overpass: what the f-strings of
    [query_hospitals_in_area], [query_hospitals_in_bbox] and
    [query_hospitals_around] are filled with.  The tag filter is the same
    fixed text in all of them. *)
Inductive query : Type :=
  | QArea (area_name parent_area : string)
  | QBBox (south west north east : Q)
  | QAround (radius : Z) (lat lon : Q).

Inductive overpass_outcome : Type :=
  | OvResult (nodes : list node)
  | OvRaise.

Inductive geocode_outcome : Type :=
  | GeoLocation (latitude longitude : Q)
  | GeoNone
  | GeoRaise.

Inductive reverse_outcome : Type :=
  | RevLocation (address : string)
  | RevNone
  | RevRaise.

(** One call to an external service, with what came back. *)
Inductive event : Type :=
  | EvQuery (q : query) (out : overpass_outcome)
  | EvGeocode (full_address : string) (out : geocode_outcome)
  | EvReverse (c : coords) (out : reverse_outcome).

(** The module's global state: the two caches, and the history of the calls
    to the outside. *)
Record world : Type := World {
  coords_cache : gmap string coords;
  reverse_cache : gmap (Qc * Qc) string;
  calls : list event
}.

Definition initial_world : world :=
  {| coords_cache := ∅; reverse_cache := ∅; calls := [] |}.

Definition record_call (e : event) (w : world) : world :=
  {| coords_cache := coords_cache w;
     reverse_cache := reverse_cache w;
     calls := calls w ++ [e] |}.

(** Key of [reverse_cache]: the pair itself, up to numeric equality. *)
Definition cache_key (c : coords) : Qc * Qc := (Q2Qc c.1, Q2Qc c.2).

(** Projections of the history. *)
Definition query_of (e : event) : option query :=
  match e with EvQuery q _ => Some q | _ => None end.

Definition geocoded_of (e : event) : option string :=
  match e with EvGeocode a _ => Some a | _ => None end.

Definition overpass_queries (tr : list event) : list query :=
  omap query_of tr.

Definition geocoder_requests (tr : list event) : list string :=
  omap geocoded_of tr.

(** ** Sorting: [list.sort(key=...)]

    Python's sort is stable and compares keys with [<] only.  It is modelled
    by a stable insertion sort, which yields the same list whenever [<] is a
    strict weak order on the keys, as it is on [sort_key]. *)

(** Values of the key [h["distance"] or float('inf')]. *)
Inductive sort_key : Type :=
  | KFinite (d : Q)
  | KInf.

Definition key_ltb (a b : sort_key) : bool :=
  match a, b with
  | KFinite x, KFinite y => negb (Qle_bool y x)
  | KFinite _, KInf => true
  | KInf, _ => false
  end.

Definition key_le (a b : sort_key) : Prop :=
  match a, b with
  | KFinite x, KFinite y => (x <= y)%Q
  | _, KInf => True
  | KInf, KFinite _ => False
  end.

Section ListSort.
Context {A : Type} (key : A → sort_key).

Fixpoint sort_insert (x : A) (l : list A) : list A :=
  match l with
  | [] => [x]
  | y :: l' =>
      if key_ltb (key y) (key x) then y :: sort_insert x l'
      else x :: y :: l'
  end.

Definition list_sort (l : list A) : list A := foldr sort_insert [] l.

(** Ascending by key. *)
Fixpoint sorted_by (l : list A) : Prop :=
  match l with
  | [] => True
  | x :: l' => Forall (λ y, key_le (key x) (key y)) l' ∧ sorted_by l'
  end.
End ListSort.

(** [lambda h: h["distance"] or float('inf')] (line 170): [None] and [0.0]
    are both falsy. *)
Definition distance_key (h : facility) : sort_key :=
  if truthy_num (fac_distance h) then
    match fac_distance h with
    | Some d => KFinite d
    | None => KInf
    end
  else KInf.

(** ** Enrichment: the first pass of [node_to_medical_facility] *)

Definition address_keys : list string :=
  ["addr:housenumber"; "addr:street"; "addr:city"; "addr:state";
   "addr:postcode"].

(** Lines 66-71. *)
Definition address_from_tags (tags : gmap string string) : option string :=
  let address := tags !! "addr:full" in
  if truthy_str address then address
  else
    let components :=
      omap (λ k, if truthy_str (tags !! k) then tags !! k else None)
           address_keys in
    match components with
    | [] => None
    | _ => Some (join ", " components)
    end.

(** Line 65. *)
Definition facility_type (tags : gmap string string) : string :=
  default (default "Unknown" (tags !! "amenity")) (tags !! "healthcare").

(** [f"within {radius / 1000} km"]: the repr of the float [radius / 1000].
    For an integer [radius] with [|radius| < 10^15] the quotient has at most
    fifteen significant digits, so its repr is its decimal expansion: the
    sign, the whole part, a point and the digits after it, at least one.
    Outside that range the repr of the float may differ, and the label is
    only used inside it. *)
Definition digits (n : Z) : string :=
  NilZero.string_of_uint (N.to_uint (Z.to_N n)).

Definition km_repr (radius : Z) : string :=
  let a := Z.abs radius in
  let whole := a / 1000 in
  let m := a mod 1000 in
  let frac :=
    if m mod 100 =? 0 then digits (m / 100)
    else if m mod 10 =? 0 then digits (m / 100) +:+ digits (m / 10 mod 10)
    else digits (m / 100) +:+ digits (m / 10 mod 10) +:+ digits (m mod 10) in
  (if radius <? 0 then "-" else "") +:+ digits whole +:+ "." +:+ frac.

(** The radii for which [km_repr] is the text the f-string produces. *)
Definition label_range (radius : Z) : Prop := Z.abs radius < 10 ^ 15.

Definition within_label (radius : Z) : string :=
  "within " +:+ km_repr radius +:+ " km".

(** Lines 98-101: the result is written to the first facility whose
    coordinate pair equals the key; the [break] ends the scan there. *)
Fixpoint apply_result (facilities : list facility) (r : coords * string)
  : list facility :=
  match facilities with
  | [] => []
  | f :: rest =>
      if coords_eqb (fac_lat f, fac_lon f) r.1
      then set_address f r.2 :: rest
      else f :: apply_result rest r
  end.

Definition max_radius : Z := 50000.
Definition radius_step : Z := 5000.

(** ** What the module imports and calls but does not define *)

Record externals : Type := Externals {
  (** [api.query] of overpy: nodes, or an exception. *)
  api_query : list event → query → overpass_outcome;
  (** [geocode] and [reverse_geocode] of geopy (lines 23-24): a location,
      [None], or an exception. *)
  geocode : list event → string → geocode_outcome;
  reverse_geocode : list event → coords → reverse_outcome;
  (** [geodesic(a, b).kilometers] *)
  geodesic : coords → coords → Q;
  (** [str.lower] *)
  str_lower : string → string;
  (** The text of a number inside an f-string. *)
  format_num : Q → string
}.

(** ** The program *)

Section Program.
Variable ext : externals.

(** Lines 35-53.  Both the [else] of line 45 and the handler of lines
    49-53 store the address they make up in the cache. *)
Definition fetch_reverse_geocode (c : coords) (w : world)
  : (coords * string) * world :=
  let '(lat, lon) := c in
  let key := (lat, lon) in
  match reverse_cache w !! cache_key key with
  | Some cached => ((key, cached), w)
  | None =>
      let out := reverse_geocode ext (calls w) (lat, lon) in
      let address :=
        match out with
        | RevLocation a => a
        | RevNone => "Address not found"
        | RevRaise =>
            "Coordinates: (" +:+ format_num ext lat +:+ ", " +:+
            format_num ext lon +:+ ")"
        end in
      ((key, address),
       {| coords_cache := coords_cache w;
          reverse_cache := <[cache_key key := address]> (reverse_cache w);
          calls := calls w ++ [EvReverse (lat, lon) out] |})
  end.

(** Lines 64-89, one node. *)
Definition make_facility (found_in : string) (ref_lat ref_lon : option Q)
    (n : node) : facility :=
  let tags := node_tags n in
  let distance :=
    if truthy_num ref_lat && truthy_num ref_lon then
      match ref_lat, ref_lon with
      | Some rlat, Some rlon =>
          Some (geodesic ext (rlat, rlon) (node_lat n, node_lon n))
      | _, _ => None
      end
    else None in
  {| fac_name := default "Unknown" (tags !! "name");
     fac_type := facility_type tags;
     fac_lat := node_lat n;
     fac_lon := node_lon n;
     fac_address := address_from_tags tags;
     fac_found_in := found_in;
     fac_distance := distance |}.

(** Line 87-88: the coordinates queued for reverse geocoding. *)
Definition coords_to_geocode (facilities : list facility) : list coords :=
  omap (λ f, if truthy_str (fac_address f) then None
             else Some (fac_lat f, fac_lon f)) facilities.

(** Lines 94-95: the tasks given to the executor.  The semaphore lets one
    task at a time talk to the service; the tasks are run here one after
    the other, in the order of submission. *)
Fixpoint run_tasks (tasks : list coords) (w : world)
  : list (coords * string) * world :=
  match tasks with
  | [] => ([], w)
  | c :: rest =>
      let '(r, w1) := fetch_reverse_geocode c w in
      let '(rs, w2) := run_tasks rest w1 in
      (r :: rs, w2)
  end.

(** Lines 57-104. *)
Definition node_to_medical_facility (nodes : list node) (found_in : string)
    (ref_lat ref_lon : option Q) (w : world) : list facility * world :=
  let facilities := map (make_facility found_in ref_lat ref_lon) nodes in
  let '(results, w1) := run_tasks (coords_to_geocode facilities) w in
  (foldl apply_result facilities results, w1).

(** Lines 108-128. *)
Definition query_hospitals_in_area (area_name parent_area : string)
    (w : world) : list facility * world :=
  let q := QArea area_name parent_area in
  let out := api_query ext (calls w) q in
  let w1 := record_call (EvQuery q out) w in
  match out with
  | OvResult nodes => node_to_medical_facility nodes area_name None None w1
  | OvRaise => ([], w1)
  end.

(** Lines 132-152. *)
Definition query_hospitals_in_bbox (lat lon delta : Q) (w : world)
  : list facility * world :=
  let '(south, north) := (lat - delta, lat + delta)%Q in
  let '(west, east) := (lon - delta, lon + delta)%Q in
  let q := QBBox south west north east in
  let out := api_query ext (calls w) q in
  let w1 := record_call (EvQuery q out) w in
  match out with
  | OvResult nodes =>
      node_to_medical_facility nodes "bounding box" (Some lat) (Some lon) w1
  | OvRaise => ([], w1)
  end.

(** Lines 156-175. *)
Definition query_hospitals_around (lat lon : Q) (radius : Z) (w : world)
  : list facility * world :=
  let q := QAround radius lat lon in
  let out := api_query ext (calls w) q in
  let w1 := record_call (EvQuery q out) w in
  match out with
  | OvResult nodes =>
      let '(hospitals, w2) :=
        node_to_medical_facility nodes (within_label radius)
                                 (Some lat) (Some lon) w1 in
      (list_sort distance_key hospitals, w2)
  | OvRaise => ([], w1)
  end.

(** Line 181: [f"{area_name}, {district}, {state}, {country}"] *)
Definition full_address_of (area_name district state country : string)
  : string :=
  area_name +:+ ", " +:+ district +:+ ", " +:+ state +:+ ", " +:+ country.

(** Lines 179-195.  Only a location that was found is stored. *)
Definition get_coords (area_name district state country : string)
    (w : world) : option coords * world :=
  let full_address := full_address_of area_name district state country in
  match coords_cache w !! full_address with
  | Some cached => (Some cached, w)
  | None =>
      let out := geocode ext (calls w) full_address in
      let w1 := record_call (EvGeocode full_address out) w in
      match out with
      | GeoLocation latitude longitude =>
          let c := (latitude, longitude) in
          (Some c,
           {| coords_cache := <[full_address := c]> (coords_cache w1);
              reverse_cache := reverse_cache w1;
              calls := calls w1 |})
      | GeoNone | GeoRaise => (None, w1)
      end
  end.

(** Lines 199-204.  [h["address"].lower()] raises on an address that is
    [None]. *)
Fixpoint filter_by_address (hospitals : list facility) (area_name : string)
  : result (list facility) :=
  match hospitals with
  | [] => Ok []
  | h :: rest =>
      match fac_address h with
      | None => Raised AttributeError
      | Some address =>
          match filter_by_address rest area_name with
          | Ok filtered =>
              Ok (if substring_in (str_lower ext area_name)
                                  (str_lower ext address)
                  then h :: filtered else filtered)
          | Raised e => Raised e
          end
      end
  end.

(** Lines 239-248: step 4 and step 5. *)
Definition parent_area_fallback (state district area_name : string)
    (w : world) : result (list facility) * world :=
  let '(parent_hospitals, w1) := query_hospitals_in_area district state w in
  match filter_by_address parent_hospitals area_name with
  | Ok filtered =>
      match filtered with
      | _ :: _ => (Ok filtered, w1)
      | [] => (Ok [], w1)
      end
  | Raised e => (Raised e, w1)
  end.

(** Lines 231-237, the [while] loop.  [fuel] bounds the number of
    iterations; [None] means the loop ended without a [return]. *)
Fixpoint radius_loop (fuel : nat) (lat lon : Q) (current_radius : Z)
    (w : world) : option (list facility) * world :=
  match fuel with
  | O => (None, w)
  | S fuel' =>
      if current_radius <=? max_radius then
        let '(hospitals, w1) :=
          query_hospitals_around lat lon current_radius w in
        match hospitals with
        | _ :: _ => (Some (take 10 hospitals), w1)
        | [] => radius_loop fuel' lat lon (current_radius + radius_step) w1
        end
      else (None, w)
  end.

(** Iterations the loop can make from [current_radius]. *)
Definition radius_fuel (current_radius : Z) : nat :=
  Z.to_nat ((max_radius - current_radius) / radius_step + 1).

(** Lines 208-248. *)
Definition get_hospitals (country state district area_name : string)
    (w : world) : result (list facility) * world :=
  let '(hospitals, w1) := query_hospitals_in_area area_name district w in
  match hospitals with
  | _ :: _ => (Ok hospitals, w1)
  | [] =>
      let '(coords, w2) := get_coords area_name district state country w1 in
      match coords with
      | Some (lat, lon) =>
          let '(hospitals, w3) :=
            query_hospitals_in_bbox lat lon (45 # 1000) w2 in
          match hospitals with
          | _ :: _ => (Ok hospitals, w3)
          | [] =>
              let current_radius := 5000 in
              match radius_loop (radius_fuel current_radius) lat lon
                                current_radius w3 with
              | (Some found, w4) => (Ok found, w4)
              | (None, w4) =>
                  parent_area_fallback state district area_name w4
              end
          end
      | None => parent_area_fallback state district area_name w2
      end
  end.

End Program.

(** ** Stand-ins for the library functions, to run the program

    The theorems below hold for every choice of the services and library
    functions.  The examples need some choice to compute with. *)

Module Demo.

(** Lower-casing of the letters A to Z; other characters are kept. *)
Definition lower_char (c : Ascii.ascii) : Ascii.ascii :=
  let n := Ascii.N_of_ascii c in
  if (65 <=? n)%N && (n <=? 90)%N then Ascii.ascii_of_N (n + 32) else c.

Fixpoint ascii_lower (s : string) : string :=
  match s with
  | EmptyString => EmptyString
  | String c rest => String (lower_char c) (ascii_lower rest)
  end.

(** A number with seven digits after the point. *)
Definition decimal_str (q : Q) : string :=
  let n := Qnum q in
  let d := Z.pos (Qden q) in
  let a := Z.abs n in
  let frac := digits (10 ^ 7 + (a mod d) * 10 ^ 7 / d) in
  (if n <? 0 then "-" else "") +:+ digits (a / d) +:+ "." +:+
  match frac with
  | String _ rest => rest
  | EmptyString => EmptyString
  end.

(** A distance in kilometres that is zero exactly between equal points:
    111 km for each degree of latitude and of longitude. *)
Definition flat_km (a b : coords) : Q :=
  ((111 # 1) * (Qabs (a.1 - b.1) + Qabs (a.2 - b.2)))%Q.

(** Three nodes in Shibuya: one with a full address, one with address parts,
    one without any address tag. *)
Definition clinic : node :=
  {| node_lat := 356595 # 10000; node_lon := 1397005 # 10000;
     node_tags := list_to_map [("name", "Shibuya Clinic");
                               ("amenity", "clinic");
                               ("addr:full", "1-2-3 Dogenzaka, Shibuya")] |}.

Definition pharmacy : node :=
  {| node_lat := 356610 # 10000; node_lon := 1397020 # 10000;
     node_tags := list_to_map [("name", "Hachiko Pharmacy");
                               ("healthcare", "pharmacy");
                               ("addr:street", "Jingumae");
                               ("addr:city", "Tokyo")] |}.

Definition hospital : node :=
  {| node_lat := 356620 # 10000; node_lon := 1397030 # 10000;
     node_tags := list_to_map [("name", "Central Hospital");
                               ("amenity", "hospital")] |}.

(** The named-area query for Shibuya finds the three nodes; everything else
    is empty or unknown. *)
Definition shibuya : externals :=
  {| api_query := λ _ q,
       match q with
       | QArea "Shibuya" "Shibuya" => OvResult [clinic; pharmacy; hospital]
       | _ => OvResult []
       end;
     geocode := λ _ _, GeoNone;
     reverse_geocode := λ _ _, RevLocation "Udagawacho, Shibuya, Tokyo";
     geodesic := flat_km;
     str_lower := ascii_lower;
     format_num := decimal_str |}.

(** The area is unknown to Overpass and to the geocoder; the district query
    finds the three nodes. *)
Definition district_only : externals :=
  {| api_query := λ _ q,
       match q with
       | QArea "Shibuya" "Tokyo" => OvResult [clinic; pharmacy; hospital]
       | _ => OvResult []
       end;
     geocode := λ _ _, GeoNone;
     reverse_geocode := λ _ _, RevLocation "Udagawacho, Shibuya, Tokyo";
     geodesic := flat_km;
     str_lower := ascii_lower;
     format_num := decimal_str |}.

(** Overpass is down; the geocoder knows the place. *)
Definition overpass_down : externals :=
  {| api_query := λ _ _, OvRaise;
     geocode := λ _ _, GeoLocation (35 # 1) (139 # 1);
     reverse_geocode := λ _ _, RevLocation "Udagawacho, Shibuya, Tokyo";
     geodesic := flat_km;
     str_lower := ascii_lower;
     format_num := decimal_str |}.

(** Overpass finds nothing anywhere; the geocoder knows the place. *)
Definition geocoder_up : externals :=
  {| api_query := λ _ _, OvResult [];
     geocode := λ _ _, GeoLocation (35 # 1) (139 # 1);
     reverse_geocode := λ _ _, RevLocation "Udagawacho, Shibuya, Tokyo";
     geodesic := flat_km;
     str_lower := ascii_lower;
     format_num := decimal_str |}.

(** A clinic that stands exactly where the geocoder puts the place, and a
    pharmacy a little to the north. *)
Definition spot_clinic : node :=
  {| node_lat := 35 # 1; node_lon := 139 # 1;
     node_tags := list_to_map [("name", "Shibuya Clinic");
                               ("amenity", "clinic");
                               ("addr:full", "1-2-3 Dogenzaka, Shibuya")] |}.

Definition north_pharmacy : node :=
  {| node_lat := 3501 # 100; node_lon := 139 # 1;
     node_tags := list_to_map [("name", "North Pharmacy");
                               ("amenity", "pharmacy");
                               ("addr:full", "4-5-6 Jingumae, Shibuya")] |}.

(** The named area is unknown, the bounding-box query times out, and the
    query within 5 km finds the clinic and the pharmacy. *)
Definition on_the_spot : externals :=
  {| api_query := λ _ q,
       match q with
       | QArea _ _ => OvResult []
       | QBBox _ _ _ _ => OvRaise
       | QAround 5000 _ _ => OvResult [spot_clinic; north_pharmacy]
       | QAround _ _ _ => OvResult []
       end;
     geocode := λ _ _, GeoLocation (35 # 1) (139 # 1);
     reverse_geocode := λ _ _, RevLocation "Udagawacho, Shibuya, Tokyo";
     geodesic := flat_km;
     str_lower := ascii_lower;
     format_num := decimal_str |}.

(** Two nodes of one building: the same coordinates, no address tags. *)
Definition ground_floor : node :=
  {| node_lat := 356620 # 10000; node_lon := 1397030 # 10000;
     node_tags := list_to_map [("name", "Ground Floor Pharmacy");
                               ("amenity", "pharmacy")] |}.

Definition first_floor : node :=
  {| node_lat := 356620 # 10000; node_lon := 1397030 # 10000;
     node_tags := list_to_map [("name", "First Floor Dentist");
                               ("amenity", "dentist")] |}.

(** The district query finds the two nodes of one building; nothing else
    is known. *)
Definition one_building : externals :=
  {| api_query := λ _ q,
       match q with
       | QArea "Shibuya" "Tokyo" => OvResult [ground_floor; first_floor]
       | _ => OvResult []
       end;
     geocode := λ _ _, GeoNone;
     reverse_geocode := λ _ _, RevLocation "Udagawacho, Shibuya, Tokyo";
     geodesic := flat_km;
     str_lower := ascii_lower;
     format_num := decimal_str |}.

(** The place is geocoded, nothing is found up to 10 km, and the query
    within 15 km finds the three nodes. *)
Definition third_ring : externals :=
  {| api_query := λ _ q,
       match q with
       | QAround 15000 _ _ => OvResult [hospital; clinic; pharmacy]
       | _ => OvResult []
       end;
     geocode := λ _ _, GeoLocation (3566 # 100) (1397 # 10);
     reverse_geocode := λ _ _, RevRaise;
     geodesic := flat_km;
     str_lower := ascii_lower;
     format_num := decimal_str |}.

(** The named area is unknown, the place is geocoded, and the bounding box
    holds the three nodes. *)
Definition in_the_box : externals :=
  {| api_query := λ _ q,
       match q with
       | QBBox _ _ _ _ => OvResult [hospital; clinic; pharmacy]
       | _ => OvResult []
       end;
     geocode := λ _ _, GeoLocation (3566 # 100) (1397 # 10);
     reverse_geocode := λ _ _, RevNone;
     geodesic := flat_km;
     str_lower := ascii_lower;
     format_num := decimal_str |}.

(** Services that are all down: every call raises. *)
Definition all_down : externals :=
  {| api_query := λ _ _, OvRaise;
     geocode := λ _ _, GeoRaise;
     reverse_geocode := λ _ _, RevRaise;
     geodesic := flat_km;
     str_lower := ascii_lower;
     format_num := decimal_str |}.

End Demo.

(** ** Vocabulary of the properties *)

(** Calls to the reverse geocoder: the only calls enrichment makes. *)
Definition is_reverse (e : event) : Prop :=
  match e with EvReverse _ _ => True | _ => False end.

(** [w'] comes from [w] by reverse geocoding alone: the forward cache is the
    same and the history grew by reverse-geocoder calls only. *)
Definition only_reverse (w w' : world) : Prop :=
  coords_cache w' = coords_cache w ∧
  ∃ evs, calls w' = calls w ++ evs ∧ Forall is_reverse evs.

(** [w'] comes from [w] by one Overpass query [q] followed by reverse
    geocoding. *)
Definition one_query (ext : externals) (q : query) (w w' : world) : Prop :=
  coords_cache w' = coords_cache w ∧
  ∃ evs, calls w' = calls w ++ EvQuery q (api_query ext (calls w) q) :: evs ∧
         Forall is_reverse evs.


(** The radii the loop of lines 231-237 goes through when no query finds
    anything. *)
Fixpoint radii_tried (fuel : nat) (current_radius : Z) : list Z :=
  match fuel with
  | O => []
  | S fuel' =>
      if current_radius <=? max_radius
      then current_radius :: radii_tried fuel' (current_radius + radius_step)
      else []
  end.

(** The bounding box of half-width 0.045 around a point. *)
Definition bbox_query (lat lon : Q) : query :=
  QBBox (lat - (45 # 1000)) (lon - (45 # 1000))
        (lat + (45 # 1000)) (lon + (45 # 1000)).


(** The radii of the escalation, in metres: 5 km to 50 km in steps of 5 km. *)
Definition radii : list Z :=
  [5000; 10000; 15000; 20000; 25000; 30000; 35000; 40000; 45000; 50000].

(** The spatial queries made once coordinates are known, when none of them
    finds anything: the bounding box, then every radius. *)
Definition spatial_ladder (c : option coords) : list query :=
  match c with
  | Some (lat, lon) => bbox_query lat lon :: map (λ r, QAround r lat lon) radii
  | None => []
  end.


(** The test of line 202 on one facility that has an address. *)
Definition address_matches (ext : externals) (area_name : string)
    (h : facility) : bool :=
  match fac_address h with
  | Some address =>
      substring_in (str_lower ext area_name) (str_lower ext address)
  | None => false
  end.

(** The address of [h] contains [area_name] as a substring, letter case
    apart: the lower-cased name occurs in the lower-cased address. *)
Definition address_mentions (ext : externals) (area_name : string)
    (h : facility) : Prop :=
  ∃ address u v, fac_address h = Some address ∧
                 str_lower ext address = u +:+ str_lower ext area_name +:+ v.


(** The worlds a process can be in: it starts with empty caches and serves
    calls of [get_coords] and of [get_hospitals], in any order. *)
Inductive reachable (ext : externals) : world → Prop :=
  | reachable_start : reachable ext initial_world
  | reachable_get_coords area_name district state country w :
      reachable ext w →
      reachable ext (get_coords ext area_name district state country w).2
  | reachable_get_hospitals country state district area_name w :
      reachable ext w →
      reachable ext (get_hospitals ext country state district area_name w).2.

(** How often the geocoding service was asked for the address [a]. *)
Definition service_invocations (a : string) (w : world) : nat :=
  length (filter (λ x, x = a) (geocoder_requests (calls w))).

(** The forward cache holds the locations the service has returned, and
    nothing else. *)
Definition answers_cached (w : world) : Prop :=
  ∀ a lat lon,
    EvGeocode a (GeoLocation lat lon) ∈ calls w ↔
    coords_cache w !! a = Some (lat, lon).


(** The order the radius stage is meant to produce: ascending by distance,
    a missing distance counting as infinite. *)
Definition distance_or_last (h : facility) : sort_key :=
  match fac_distance h with
  | Some d => KFinite d
  | None => KInf
  end.


(** ** The HTTP route of [app.py] *)

(** The JSON objects the route answers with. *)
Inductive payload : Type :=
  | Message (message : string)
  | Hospitals (hospital_data : list facility) (message : string)
  | Error (error : string).

(** [str(e)] of the exception that can reach the route. *)
Definition exn_str (e : exn) : string :=
  match e with
  | AttributeError => "'NoneType' object has no attribute 'lower'"
  end.

(** [str(len(l))] *)
Definition len_str {A : Type} (l : list A) : string :=
  digits (Z.of_nat (length l)).

(** [app.py], lines 10-24: the payload and the status code. *)
Definition hospitals (ext : externals) (country state district area : string)
    (w : world) : (payload * Z) * world :=
  match get_hospitals ext country state district area w with
  | (Ok hospital_data, w') =>
      match hospital_data with
      | [] => ((Message "No hospitals found in this area or nearby.", 404), w')
      | first :: _ =>
          let found_in := fac_found_in first in
          ((Hospitals hospital_data
              (if negb (String.eqb found_in area)
               then "Showing " +:+ len_str hospital_data +:+
                    " hospitals from " +:+ found_in
               else "Found " +:+ len_str hospital_data +:+
                    " hospitals in " +:+ area), 200), w')
      end
  | (Raised e, w') => ((Error (exn_str e), 500), w')
  end.

(** [w'] comes from [w] by adding: what was in the caches is still there,
    with the same value, and the history is continued. *)
Definition grows (w w' : world) : Prop :=
  coords_cache w ⊆ coords_cache w' ∧
  reverse_cache w ⊆ reverse_cache w' ∧
  calls w `prefix_of` calls w'.

(** All the Overpass queries a search can make, in the order it makes
    them. *)
Definition query_ladder (area_name district state : string)
    (c : option coords) : list query :=
  QArea area_name district :: spatial_ladder c ++ [QArea district state].

(** The tags an address can come from are all missing or empty. *)
Definition no_address_tag (tags : gmap string string) : Prop :=
  truthy_str (tags !! "addr:full") = false ∧
  Forall (λ k, truthy_str (tags !! k) = false) address_keys.


(** ** The rest of a search, from a stage on

    [get_hospitals] is one function; these are the parts of its body that
    remain once a stage has come back empty ([get_hospitals_from_stages]
    below shows that it is made of them). *)

(** Lines 227-248: the radius loop and, if it finds nothing, the parent
    area. *)
Definition radius_and_parent_stages (ext : externals)
    (state district area_name : string) (lat lon : Q) (w : world)
  : result (list facility) * world :=
  match radius_loop ext (radius_fuel 5000) lat lon 5000 w with
  | (Some found, w') => (Ok found, w')
  | (None, w') => parent_area_fallback ext state district area_name w'
  end.

(** Lines 219-248: geocoding, and then the bounding box, the radius loop
    and the parent area, or the parent area at once. *)
Definition geocode_and_later_stages (ext : externals)
    (country state district area_name : string) (w : world)
  : result (list facility) * world :=
  let '(coords, w2) := get_coords ext area_name district state country w in
  match coords with
  | Some (lat, lon) =>
      let '(hospitals, w3) :=
        query_hospitals_in_bbox ext lat lon (45 # 1000) w2 in
      match hospitals with
      | _ :: _ => (Ok hospitals, w3)
      | [] => radius_and_parent_stages ext state district area_name lat lon w3
      end
  | None => parent_area_fallback ext state district area_name w2
  end.


(** * Properties *)

(** ** Strings *)

Lemma prefix_app (s t : string) :
  String.prefix s t = true ↔ ∃ v, t = s +:+ v.
Proof.
  revert t. induction s as [|c s IH]; intros t.
  - split; [intros _; by exists t | by destruct t].
  - destruct t as [|d t]; simpl.
    + split; [done | intros [v Hv]; discriminate].
    + destruct (Ascii.ascii_dec c d) as [->|Hne].
      * rewrite IH. split.
        -- intros [v ->]. by exists v.
        -- intros [v Hv]. exists v. by injection Hv.
      * split; [done | intros [v Hv]; by injection Hv].
Qed.

(** [substring_in] is Python's [in]: some text before, the needle, some text
    after. *)
Lemma substring_in_spec (s t : string) :
  substring_in s t = true ↔ ∃ u v, t = u +:+ s +:+ v.
Proof.
  induction t as [|d t IH]; cbn [substring_in].
  - rewrite orb_false_r, prefix_app. split.
    + intros [v Hv]. by exists "", v.
    + intros (u & v & Huv). destruct u; simpl in Huv; [by exists v | done].
  - rewrite orb_true_iff, prefix_app, IH. split.
    + intros [[v Hv] | (u & v & Huv)].
      * by exists "", v.
      * exists (String d u), v. simpl. by rewrite Huv.
    + intros (u & v & Huv). destruct u as [|c u]; simpl in Huv.
      * left. by exists v.
      * right. exists u, v. by injection Huv.
Qed.

(** ** The sort *)

Lemma key_ltb_false_le (a b : sort_key) : key_ltb a b = false → key_le b a.
Proof.
  destruct a as [x|], b as [y|]; simpl; try done.
  rewrite negb_false_iff. apply Qle_bool_imp_le.
Qed.

Lemma key_ltb_true_le (a b : sort_key) : key_ltb a b = true → key_le a b.
Proof.
  destruct a as [x|], b as [y|]; simpl; try done.
  rewrite negb_true_iff. intros H.
  destruct (Qlt_le_dec x y) as [Hlt|Hle]; [by apply Qlt_le_weak|].
  apply Qle_bool_iff in Hle. congruence.
Qed.

Lemma key_le_trans (a b c : sort_key) : key_le a b → key_le b c → key_le a c.
Proof.
  destruct a, b, c; simpl; try done. apply Qle_trans.
Qed.

Section SortFacts.
Context {A : Type} (key : A → sort_key).

Lemma sort_insert_perm (x : A) (l : list A) : sort_insert key x l ≡ₚ x :: l.
Proof.
  induction l as [|y l IH]; simpl; [done|].
  destruct (key_ltb (key y) (key x)); [|done].
  rewrite IH. apply Permutation_swap.
Qed.

Lemma list_sort_perm (l : list A) : list_sort key l ≡ₚ l.
Proof.
  induction l as [|x l IH]; simpl; [done|].
  rewrite sort_insert_perm. by rewrite IH.
Qed.

Lemma list_sort_length (l : list A) : length (list_sort key l) = length l.
Proof. by rewrite list_sort_perm. Qed.

Lemma sort_insert_sorted (x : A) (l : list A) :
  sorted_by key l → sorted_by key (sort_insert key x l).
Proof.
  induction l as [|y l IH]; simpl; [done|].
  intros [Hy Hl]. destruct (key_ltb (key y) (key x)) eqn:Hlt; simpl.
  - split; [|by apply IH].
    rewrite sort_insert_perm. constructor; [by apply key_ltb_true_le | done].
  - apply key_ltb_false_le in Hlt. repeat split; try done.
    constructor; [done|].
    eapply Forall_impl; [exact Hy|]. intros z Hz. by eapply key_le_trans.
Qed.

Lemma list_sort_sorted (l : list A) : sorted_by key (list_sort key l).
Proof.
  induction l as [|x l IH]; simpl; [done|]. by apply sort_insert_sorted.
Qed.

(** In a sorted list, an earlier element has the smaller key. *)
Lemma sorted_by_lookup (l : list A) (i j : nat) (x y : A) :
  sorted_by key l → (i < j)%nat → l !! i = Some x → l !! j = Some y →
  key_le (key x) (key y).
Proof.
  revert i j. induction l as [|z l IH]; intros i j Hs Hij Hi Hj; [done|].
  destruct Hs as [Hz Hl]. destruct i as [|i], j as [|j]; try lia.
  - simpl in Hi, Hj. simplify_eq.
    rewrite Forall_forall in Hz. apply Hz. by eapply list_elem_of_lookup_2.
  - simpl in Hi, Hj. eapply (IH i j); eauto with lia.
Qed.

(** The sort keeps the head of a sorted list of at most [n] elements
    ([take] does not disturb the order). *)
Lemma sorted_by_take (n : nat) (l : list A) :
  sorted_by key l → sorted_by key (take n l).
Proof.
  revert n. induction l as [|x l IH]; intros [|n]; simpl; try done.
  intros [Hx Hl]. split; [|by apply IH].
  rewrite Forall_forall in Hx. apply Forall_forall. intros y Hy.
  apply Hx. eapply subseteq_take, Hy.
Qed.

End SortFacts.

(** ** What each function does to the caches and to the history *)

Lemma overpass_queries_reverse (evs : list event) :
  Forall is_reverse evs → overpass_queries evs = [].
Proof.
  induction 1 as [|e evs He _ IH]; [done|].
  destruct e; simpl in *; done.
Qed.

Lemma geocoder_requests_reverse (evs : list event) :
  Forall is_reverse evs → geocoder_requests evs = [].
Proof.
  induction 1 as [|e evs He _ IH]; [done|].
  destruct e; simpl in *; done.
Qed.

Lemma only_reverse_refl (w : world) : only_reverse w w.
Proof.
  split; [done|]. exists []. split; [by rewrite app_nil_r | constructor].
Qed.

Lemma only_reverse_trans (w1 w2 w3 : world) :
  only_reverse w1 w2 → only_reverse w2 w3 → only_reverse w1 w3.
Proof.
  intros [Hc1 (e1 & H1 & F1)] [Hc2 (e2 & H2 & F2)]. split; [congruence|].
  exists (e1 ++ e2). rewrite H2, H1, <-app_assoc. split; [done|].
  by apply Forall_app.
Qed.

Lemma only_reverse_queries (w w' : world) :
  only_reverse w w' →
  overpass_queries (calls w') = overpass_queries (calls w) ∧
  geocoder_requests (calls w') = geocoder_requests (calls w).
Proof.
  intros [_ (evs & Hcalls & Hevs)]. rewrite Hcalls.
  unfold overpass_queries, geocoder_requests. rewrite !omap_app.
  fold (overpass_queries evs). fold (geocoder_requests evs).
  rewrite (overpass_queries_reverse evs), (geocoder_requests_reverse evs)
    by done.
  by rewrite !app_nil_r.
Qed.

Lemma one_query_queries (ext : externals) (q : query) (w w' : world) :
  one_query ext q w w' →
  overpass_queries (calls w') = overpass_queries (calls w) ++ [q] ∧
  geocoder_requests (calls w') = geocoder_requests (calls w).
Proof.
  intros [_ (evs & Hcalls & Hevs)]. rewrite Hcalls.
  pose proof (overpass_queries_reverse evs Hevs) as H1.
  pose proof (geocoder_requests_reverse evs Hevs) as H2.
  unfold overpass_queries, geocoder_requests in *. rewrite !omap_app.
  change (omap query_of (EvQuery q (api_query ext (calls w) q) :: evs))
    with (q :: omap query_of evs).
  change (omap geocoded_of (EvQuery q (api_query ext (calls w) q) :: evs))
    with (omap geocoded_of evs).
  by rewrite H1, H2, app_nil_r.
Qed.

Section Effects.
Context (ext : externals).

Lemma fetch_reverse_geocode_effect (c : coords) (w : world) :
  only_reverse w (fetch_reverse_geocode ext c w).2.
Proof.
  unfold fetch_reverse_geocode. destruct c as [lat lon].
  destruct (reverse_cache w !! _); simpl; [apply only_reverse_refl|].
  split; [done|]. eexists. split; [done|]. by repeat constructor.
Qed.

Lemma run_tasks_effect (tasks : list coords) (w : world) :
  only_reverse w (run_tasks ext tasks w).2.
Proof.
  revert w. induction tasks as [|c tasks IH]; intros w; simpl.
  - apply only_reverse_refl.
  - pose proof (fetch_reverse_geocode_effect c w) as H1.
    destruct (fetch_reverse_geocode ext c w) as [r w1]. simpl in H1.
    pose proof (IH w1) as H2.
    destruct (run_tasks ext tasks w1) as [rs w2]. simpl in *.
    by eapply only_reverse_trans.
Qed.

Lemma node_to_medical_facility_effect (nodes : list node) (found_in : string)
    (ref_lat ref_lon : option Q) (w : world) :
  only_reverse w
    (node_to_medical_facility ext nodes found_in ref_lat ref_lon w).2.
Proof.
  unfold node_to_medical_facility.
  pose proof (run_tasks_effect
    (coords_to_geocode (map (make_facility ext found_in ref_lat ref_lon) nodes))
    w) as H.
  by destruct (run_tasks ext _ w) as [rs w1].
Qed.

Lemma one_query_intro (q : query) (w w' : world) :
  only_reverse (record_call (EvQuery q (api_query ext (calls w) q)) w) w' →
  one_query ext q w w'.
Proof.
  intros [Hc (evs & Hcalls & Hevs)]. split; [done|].
  exists evs. split; [|done]. rewrite Hcalls. simpl. by rewrite <-app_assoc.
Qed.

Lemma query_hospitals_in_area_effect (area_name parent_area : string)
    (w : world) :
  one_query ext (QArea area_name parent_area) w
    (query_hospitals_in_area ext area_name parent_area w).2.
Proof.
  unfold query_hospitals_in_area. apply one_query_intro.
  destruct (api_query ext (calls w) _); [|apply only_reverse_refl].
  apply node_to_medical_facility_effect.
Qed.

Lemma query_hospitals_in_bbox_effect (lat lon delta : Q) (w : world) :
  one_query ext
    (QBBox (lat - delta) (lon - delta) (lat + delta) (lon + delta)) w
    (query_hospitals_in_bbox ext lat lon delta w).2.
Proof.
  unfold query_hospitals_in_bbox. simpl. apply one_query_intro.
  destruct (api_query ext (calls w) _); [|apply only_reverse_refl].
  apply node_to_medical_facility_effect.
Qed.

Lemma query_hospitals_around_effect (lat lon : Q) (radius : Z) (w : world) :
  one_query ext (QAround radius lat lon) w
    (query_hospitals_around ext lat lon radius w).2.
Proof.
  unfold query_hospitals_around. apply one_query_intro.
  destruct (api_query ext (calls w) _); [|apply only_reverse_refl].
  pose proof (node_to_medical_facility_effect nodes (within_label radius)
    (Some lat) (Some lon)
    (record_call (EvQuery (QAround radius lat lon) (OvResult nodes)) w)) as H.
  by destruct (node_to_medical_facility ext nodes _ _ _ _) as [hs w2].
Qed.

End Effects.

(** ** The stages of [get_hospitals] *)

Section Stages.
Context (ext : externals).

Lemma get_coords_queries (area_name district state country : string)
    (w : world) :
  overpass_queries (calls (get_coords ext area_name district state country w).2)
  = overpass_queries (calls w).
Proof.
  unfold get_coords. destruct (coords_cache w !! _); [done|].
  assert (∀ out, overpass_queries
            (calls w ++ [EvGeocode
               (full_address_of area_name district state country) out])
          = overpass_queries (calls w)) as H.
  { intros out. unfold overpass_queries. rewrite omap_app. simpl.
    by rewrite app_nil_r. }
  destruct (geocode ext (calls w) _); simpl; apply H.
Qed.

Lemma parent_area_fallback_world (state district area_name : string)
    (w : world) :
  (parent_area_fallback ext state district area_name w).2
  = (query_hospitals_in_area ext district state w).2.
Proof.
  unfold parent_area_fallback.
  destruct (query_hospitals_in_area ext district state w) as [hs w1].
  destruct (filter_by_address ext hs area_name) as [[|h l]|e]; done.
Qed.

(** A query that raises is a stage without results. *)
Lemma query_hospitals_in_area_raise (area_name parent_area : string)
    (w : world) :
  api_query ext (calls w) (QArea area_name parent_area) = OvRaise →
  query_hospitals_in_area ext area_name parent_area w
  = ([], record_call (EvQuery (QArea area_name parent_area) OvRaise) w).
Proof. intros H. unfold query_hospitals_in_area. by rewrite H. Qed.

Lemma query_hospitals_in_bbox_raise (lat lon delta : Q) (w : world) :
  api_query ext (calls w)
    (QBBox (lat - delta) (lon - delta) (lat + delta) (lon + delta)) = OvRaise →
  query_hospitals_in_bbox ext lat lon delta w
  = ([], record_call
           (EvQuery (QBBox (lat - delta) (lon - delta)
                           (lat + delta) (lon + delta)) OvRaise) w).
Proof. intros H. unfold query_hospitals_in_bbox. simpl. by rewrite H. Qed.

Lemma query_hospitals_around_raise (lat lon : Q) (radius : Z) (w : world) :
  api_query ext (calls w) (QAround radius lat lon) = OvRaise →
  query_hospitals_around ext lat lon radius w
  = ([], record_call (EvQuery (QAround radius lat lon) OvRaise) w).
Proof. intros H. unfold query_hospitals_around. by rewrite H. Qed.

(** The loop has all the fuel it can use: more fuel changes nothing. *)
Lemma radius_fuel_step (r : Z) :
  r <= max_radius → radius_fuel r = S (radius_fuel (r + radius_step)).
Proof.
  unfold radius_fuel, max_radius, radius_step. intros Hr.
  replace (50000 - r) with ((50000 - (r + 5000)) + 1 * 5000) by lia.
  rewrite Z.div_add by lia.
  assert (-1 <= (50000 - (r + 5000)) / 5000).
  { apply Z.div_le_lower_bound; lia. }
  lia.
Qed.

Lemma radius_loop_fuel (fuel : nat) (lat lon : Q) (r : Z) (w : world) :
  (radius_fuel r ≤ fuel)%nat →
  radius_loop ext fuel lat lon r w
  = radius_loop ext (radius_fuel r) lat lon r w.
Proof.
  revert r w. induction fuel as [|fuel IH]; intros r w Hfuel.
  - by replace (radius_fuel r) with 0%nat by lia.
  - destruct (Z.leb_spec r max_radius) as [Hr|Hr].
    + rewrite (radius_fuel_step r Hr) in *. simpl.
      apply Z.leb_le in Hr. rewrite Hr.
      destruct (query_hospitals_around ext lat lon r w) as [[|h hs] w1];
        [|done].
      apply IH. lia.
    + assert (radius_fuel r = 0%nat) as ->.
      { unfold radius_fuel, max_radius, radius_step in *.
        assert ((50000 - r) / 5000 < 0) by (apply Z.div_lt_upper_bound; lia).
        lia. }
      simpl. apply Z.leb_gt in Hr. by rewrite Hr.
Qed.

(** With a backend that raises on every query, the loop tries every radius
    and ends without a result. *)
Lemma radius_loop_all_raise (fuel : nat) (lat lon : Q) (r : Z) (w : world) :
  (∀ tr q, api_query ext tr q = OvRaise) →
  ∃ w', radius_loop ext fuel lat lon r w = (None, w') ∧
        coords_cache w' = coords_cache w ∧
        overpass_queries (calls w')
        = overpass_queries (calls w)
          ++ map (λ r', QAround r' lat lon) (radii_tried fuel r).
Proof.
  intros Hdown. revert r w. induction fuel as [|fuel IH]; intros r w; simpl.
  - exists w. by rewrite app_nil_r.
  - destruct (r <=? max_radius).
    + rewrite query_hospitals_around_raise by apply Hdown.
      destruct (IH (r + radius_step)
                  (record_call (EvQuery (QAround r lat lon) OvRaise) w))
        as (w' & Hloop & Hcache & Hq).
      exists w'. split; [done|]. split; [done|].
      rewrite Hq. simpl. unfold overpass_queries. rewrite omap_app. simpl.
      by rewrite <-app_assoc.
    + exists w. by rewrite app_nil_r.
Qed.

End Stages.

(** ** The orchestrator *)

Lemma overpass_queries_record (q : query) (out : overpass_outcome)
    (w : world) :
  overpass_queries (calls (record_call (EvQuery q out) w))
  = overpass_queries (calls w) ++ [q].
Proof. unfold overpass_queries. simpl. by rewrite omap_app. Qed.

(** C1.  When the named-area query (area within district) finds at least one
    facility, [get_hospitals] returns that very list, in the same order, and
    stops in the world the query left: the history has one more Overpass
    query, the named-area one, and no request to the forward geocoder. *)
Theorem named_area_hit_returned_as_is (ext : externals)
    (country state district area_name : string) (w w' : world)
    (hospitals : list facility) :
  query_hospitals_in_area ext area_name district w = (hospitals, w') →
  hospitals ≠ [] →
  get_hospitals ext country state district area_name w = (Ok hospitals, w') ∧
  geocoder_requests (calls w') = geocoder_requests (calls w) ∧
  overpass_queries (calls w')
  = overpass_queries (calls w) ++ [QArea area_name district].
Proof.
  intros Hq Hne.
  pose proof (query_hospitals_in_area_effect ext area_name district w) as He.
  unfold get_hospitals. rewrite Hq in *. simpl in He.
  apply one_query_queries in He as [Ho Hg].
  destruct hospitals as [|h hs]; done.
Qed.

Lemma named_area_hit_witness :
  (get_hospitals Demo.shibuya "Japan" "Tokyo" "Shibuya" "Shibuya"
                 initial_world).1
  = Ok (query_hospitals_in_area Demo.shibuya "Shibuya" "Shibuya"
                                initial_world).1.
Proof.
  destruct (named_area_hit_returned_as_is Demo.shibuya
              "Japan" "Tokyo" "Shibuya" "Shibuya" initial_world
              (query_hospitals_in_area Demo.shibuya "Shibuya" "Shibuya"
                                       initial_world).2
              (query_hospitals_in_area Demo.shibuya "Shibuya" "Shibuya"
                                       initial_world).1) as (H & _ & _).
  - apply surjective_pairing.
  - vm_compute. discriminate.
  - rewrite H. reflexivity.
Defined.

(** C3.  When the named-area query finds nothing and forward geocoding fails
    ([get_coords] returns [None]: the service raised or found no match),
    [get_hospitals] goes on with the parent-area stage at once: its outcome
    is that of [parent_area_fallback] in the world the geocoder left, and the
    only Overpass queries made are the named-area query and the district
    query; no bounding-box or radius query is sent. *)
Theorem geocode_failure_skips_to_parent_area (ext : externals)
    (country state district area_name : string) (w w1 w2 : world) :
  query_hospitals_in_area ext area_name district w = ([], w1) →
  get_coords ext area_name district state country w1 = (None, w2) →
  get_hospitals ext country state district area_name w
  = parent_area_fallback ext state district area_name w2 ∧
  overpass_queries
    (calls (get_hospitals ext country state district area_name w).2)
  = overpass_queries (calls w)
    ++ [QArea area_name district; QArea district state].
Proof.
  intros Hq Hc.
  assert (get_hospitals ext country state district area_name w
          = parent_area_fallback ext state district area_name w2) as Hgo.
  { unfold get_hospitals. by rewrite Hq, Hc. }
  split; [done|]. rewrite Hgo, parent_area_fallback_world.
  pose proof (query_hospitals_in_area_effect ext area_name district w) as H1.
  pose proof (get_coords_queries ext area_name district state country w1) as H2.
  pose proof (query_hospitals_in_area_effect ext district state w2) as H3.
  rewrite Hq in H1. rewrite Hc in H2. simpl in H1, H2.
  apply one_query_queries in H1 as [H1 _].
  apply one_query_queries in H3 as [H3 _].
  rewrite H3, H2, H1. by rewrite <-app_assoc.
Qed.

(** What "forward geocoding fails" is: the address is not in the cache and
    the service raises or finds nothing. *)
Lemma get_coords_fails_iff (ext : externals)
    (area_name district state country : string) (w : world) :
  let a := full_address_of area_name district state country in
  (get_coords ext area_name district state country w).1 = None ↔
  coords_cache w !! a = None ∧
  (geocode ext (calls w) a = GeoNone ∨ geocode ext (calls w) a = GeoRaise).
Proof.
  unfold get_coords. simpl.
  destruct (coords_cache w !! _) as [c|].
  - split; [done | by intros [? _]].
  - destruct (geocode ext (calls w) _); simpl.
    + split; [done | by intros [_ [?|?]]].
    + split; [by auto | done].
    + split; [by auto | done].
Qed.

Lemma geocode_failure_witness :
  (get_hospitals Demo.district_only "Japan" "Tokyo" "Shibuya" "Dogenzaka"
                 initial_world).1
  = (parent_area_fallback Demo.district_only "Tokyo" "Shibuya" "Dogenzaka"
       (get_coords Demo.district_only "Dogenzaka" "Shibuya" "Tokyo" "Japan"
          (query_hospitals_in_area Demo.district_only "Dogenzaka" "Shibuya"
                                   initial_world).2).2).1.
Proof.
  destruct (geocode_failure_skips_to_parent_area Demo.district_only
              "Japan" "Tokyo" "Shibuya" "Dogenzaka" initial_world
              (query_hospitals_in_area Demo.district_only "Dogenzaka" "Shibuya"
                                       initial_world).2
              (get_coords Demo.district_only "Dogenzaka" "Shibuya" "Tokyo"
                 "Japan"
                 (query_hospitals_in_area Demo.district_only "Dogenzaka"
                    "Shibuya" initial_world).2).2) as [H _].
  - reflexivity.
  - reflexivity.
  - rewrite H. reflexivity.
Defined.

Lemma radii_tried_all : radii_tried (radius_fuel 5000) 5000 = radii.
Proof. reflexivity. Qed.

(** A total outage.  With a spatial backend that raises on every query,
    each of the three query functions returns the empty list, and
    [get_hospitals] runs through every stage and ends normally with the
    empty list: after the named-area query come, if the place was geocoded,
    the bounding-box query and the ten radius queries, and at last the
    district query. *)
Lemma total_outage_runs_every_stage (ext : externals)
    (country state district area_name : string) (w : world) :
  (∀ tr q, api_query ext tr q = OvRaise) →
  (∀ a p w0, query_hospitals_in_area ext a p w0
             = ([], record_call (EvQuery (QArea a p) OvRaise) w0)) ∧
  (∀ lat lon delta w0,
     query_hospitals_in_bbox ext lat lon delta w0
     = ([], record_call
              (EvQuery (QBBox (lat - delta) (lon - delta)
                              (lat + delta) (lon + delta)) OvRaise) w0)) ∧
  (∀ lat lon radius w0,
     query_hospitals_around ext lat lon radius w0
     = ([], record_call (EvQuery (QAround radius lat lon) OvRaise) w0)) ∧
  ∃ w', get_hospitals ext country state district area_name w = (Ok [], w') ∧
        overpass_queries (calls w')
        = overpass_queries (calls w)
          ++ QArea area_name district
             :: spatial_ladder
                  (get_coords ext area_name district state country
                     (record_call
                        (EvQuery (QArea area_name district) OvRaise) w)).1
          ++ [QArea district state].
Proof.
  intros Hdown.
  split; [intros; by apply query_hospitals_in_area_raise|].
  split; [intros; by apply query_hospitals_in_bbox_raise|].
  split; [intros; by apply query_hospitals_around_raise|].
  unfold get_hospitals.
  rewrite query_hospitals_in_area_raise by apply Hdown.
  pose proof (get_coords_queries ext area_name district state country
    (record_call (EvQuery (QArea area_name district) OvRaise) w)) as Hc.
  rewrite overpass_queries_record in Hc.
  assert (∀ w2, ∃ w',
            parent_area_fallback ext state district area_name w2 = (Ok [], w')
            ∧ overpass_queries (calls w')
              = overpass_queries (calls w2) ++ [QArea district state])
    as Hparent.
  { intros w2. unfold parent_area_fallback.
    rewrite query_hospitals_in_area_raise by apply Hdown. simpl.
    eexists. split; [done|]. apply overpass_queries_record. }
  destruct (get_coords ext area_name district state country _)
    as [[[lat lon]|] w2]; cbn [fst snd spatial_ladder] in Hc |- *.
  - rewrite query_hospitals_in_bbox_raise by apply Hdown.
    destruct (radius_loop_all_raise ext (radius_fuel 5000) lat lon 5000
                (record_call (EvQuery (bbox_query lat lon) OvRaise) w2)
                Hdown) as (w4 & H4 & _ & Hq4).
    unfold bbox_query in H4. rewrite H4.
    destruct (Hparent w4) as (w' & -> & H').
    exists w'. split; [done|].
    rewrite H', Hq4, radii_tried_all, overpass_queries_record, Hc.
    by rewrite <-!app_assoc.
  - destruct (Hparent w2) as (w' & -> & H').
    exists w'. split; [done|]. rewrite H', Hc. by rewrite <-!app_assoc.
Qed.

Lemma total_outage_example :
  (get_hospitals Demo.overpass_down "Japan" "Tokyo" "Shibuya" "Shibuya"
                 initial_world).1 = Ok [] ∧
  length (overpass_queries
            (calls (get_hospitals Demo.overpass_down "Japan" "Tokyo" "Shibuya"
                                  "Shibuya" initial_world).2)) = 13%nat.
Proof.
  destruct (total_outage_runs_every_stage Demo.overpass_down
              "Japan" "Tokyo" "Shibuya" "Shibuya" initial_world)
    as (_ & _ & _ & w' & H & Hq).
  - reflexivity.
  - rewrite H. simpl. rewrite Hq. split; reflexivity.
Defined.


(** ** The address filter *)

Lemma address_matches_mentions (ext : externals) (area_name : string)
    (h : facility) :
  address_matches ext area_name h = true ↔ address_mentions ext area_name h.
Proof.
  unfold address_matches, address_mentions.
  destruct (fac_address h) as [a|].
  - rewrite substring_in_spec. split.
    + intros (u & v & H). by exists a, u, v.
    + intros (a' & u & v & [= <-] & H). by exists u, v.
  - split; [done|]. by intros (a' & u & v & ? & _).
Qed.

(** When no exception is raised, the comprehension is a filter. *)
Lemma filter_by_address_Ok (ext : externals) (hospitals : list facility)
    (area_name : string) (filtered : list facility) :
  filter_by_address ext hospitals area_name = Ok filtered →
  filtered
  = filter (λ h, address_matches ext area_name h = true) hospitals.
Proof.
  revert filtered. induction hospitals as [|h hs IH]; intros filtered; simpl.
  - by intros [= <-].
  - destruct (fac_address h) as [a|] eqn:Ha; [|done].
    destruct (filter_by_address ext hs area_name) as [r|e]; [|done].
    intros [= <-]. rewrite (IH r eq_refl), filter_cons.
    assert (address_matches ext area_name h
            = substring_in (str_lower ext area_name) (str_lower ext a)) as Hm.
    { unfold address_matches. by rewrite Ha. }
    destruct (substring_in _ _); case_decide; congruence.
Qed.

(** It raises only on a facility without an address. *)
Lemma filter_by_address_total (ext : externals) (hospitals : list facility)
    (area_name : string) :
  Forall (λ h, is_Some (fac_address h)) hospitals →
  ∃ filtered, filter_by_address ext hospitals area_name = Ok filtered.
Proof.
  induction 1 as [|h hs [a Ha] _ [r IH]]; simpl; [by eexists|].
  rewrite Ha, IH. by eexists.
Qed.

(** C4.  The parent-area stage takes the facilities of the district query
    and, unless one of them has no address at all (then line 202 raises),
    produces a list; every list it produces is a sub-list of the district's
    facilities, in their order, and a facility of the district is in it
    exactly if its address contains the area name, letter case apart. *)
Theorem parent_area_filter_keeps_matches (ext : externals)
    (state district area_name : string) (w : world) :
  let parent_hospitals := (query_hospitals_in_area ext district state w).1 in
  (Forall (λ h, is_Some (fac_address h)) parent_hospitals →
   ∃ filtered,
     (parent_area_fallback ext state district area_name w).1 = Ok filtered) ∧
  (∀ filtered,
     (parent_area_fallback ext state district area_name w).1 = Ok filtered →
     filtered `sublist_of` parent_hospitals ∧
     ∀ h, h ∈ filtered ↔
          h ∈ parent_hospitals ∧ address_mentions ext area_name h).
Proof.
  unfold parent_area_fallback.
  destruct (query_hospitals_in_area ext district state w) as [hs w1]. simpl.
  split.
  - intros Hall.
    destruct (filter_by_address_total ext hs area_name Hall) as [r ->].
    destruct r; by eexists.
  - intros filtered Hres.
    assert (filter_by_address ext hs area_name = Ok filtered) as Hf.
    { destruct (filter_by_address ext hs area_name) as [[|h r]|e];
        simpl in Hres; congruence. }
    apply filter_by_address_Ok in Hf as ->. split.
    + apply sublist_filter.
    + intros h. rewrite list_elem_of_filter, address_matches_mentions.
      tauto.
Qed.

Lemma parent_area_filter_witness :
  ∃ filtered,
    (parent_area_fallback Demo.district_only "Tokyo" "Shibuya" "DOGENZAKA"
                          initial_world).1 = Ok filtered ∧
    length filtered = 1%nat.
Proof.
  destruct (parent_area_filter_keeps_matches Demo.district_only
              "Tokyo" "Shibuya" "DOGENZAKA" initial_world) as [Hsome Hall].
  destruct Hsome as [filtered Hf].
  - vm_compute. repeat constructor; eexists; reflexivity.
  - exists filtered. split; [exact Hf|].
    vm_compute in Hf. injection Hf as <-. reflexivity.
Defined.

(** ** The forward cache *)

Lemma answers_cached_extend (w w' : world) (evs : list event) :
  coords_cache w' = coords_cache w →
  calls w' = calls w ++ evs →
  (∀ a lat lon, EvGeocode a (GeoLocation lat lon) ∉ evs) →
  answers_cached w → answers_cached w'.
Proof.
  intros Hc Hcalls Hevs Hinv a lat lon. rewrite Hcalls, Hc, elem_of_app.
  rewrite <-(Hinv a lat lon). split; [|by left].
  intros [Hin|Hin]; [done|]. by apply Hevs in Hin.
Qed.

Lemma reverse_calls_no_answer (evs : list event) (a : string) (lat lon : Q) :
  Forall is_reverse evs → EvGeocode a (GeoLocation lat lon) ∉ evs.
Proof.
  intros Hevs Hin. rewrite Forall_forall in Hevs. by apply Hevs in Hin.
Qed.

Lemma answers_cached_only_reverse (w w' : world) :
  only_reverse w w' → answers_cached w → answers_cached w'.
Proof.
  intros [Hc (evs & Hcalls & Hevs)].
  eapply answers_cached_extend; eauto using reverse_calls_no_answer.
Qed.

Lemma answers_cached_one_query (ext : externals) (q : query) (w w' : world) :
  one_query ext q w w' → answers_cached w → answers_cached w'.
Proof.
  intros [Hc (evs & Hcalls & Hevs)].
  eapply answers_cached_extend; eauto.
  intros a lat lon Hin. apply elem_of_cons in Hin as [?|Hin]; [done|].
  by eapply reverse_calls_no_answer.
Qed.

Lemma answers_cached_get_coords (ext : externals)
    (area_name district state country : string) (w : world) :
  answers_cached w →
  answers_cached (get_coords ext area_name district state country w).2.
Proof.
  intros Hinv. unfold get_coords.
  generalize (full_address_of area_name district state country) as a.
  intros a. simpl.
  destruct (coords_cache w !! a) as [c|] eqn:Hmiss; [done|].
  destruct (geocode ext (calls w) a) as [lat lon| |] eqn:Hout; simpl.
  - intros a' lat' lon'. simpl. rewrite elem_of_app, list_elem_of_singleton.
    destruct (decide (a = a')) as [<-|Hne].
    + rewrite lookup_insert_eq. split.
      * intros [Hin|[= -> ->]]; [|done].
        apply Hinv in Hin. congruence.
      * intros [= -> ->]. by right.
    + rewrite lookup_insert_ne by done. rewrite <-(Hinv a' lat' lon').
      split; [|by left]. intros [Hin|[= ? _ _]]; done.
  - apply (answers_cached_extend w _ [EvGeocode a GeoNone]); try done.
    intros a' lat lon Hin. by apply list_elem_of_singleton in Hin.
  - apply (answers_cached_extend w _ [EvGeocode a GeoRaise]); try done.
    intros a' lat lon Hin. by apply list_elem_of_singleton in Hin.
Qed.

Lemma answers_cached_radius_loop (ext : externals) (fuel : nat) (lat lon : Q)
    (r : Z) (w : world) :
  answers_cached w → answers_cached (radius_loop ext fuel lat lon r w).2.
Proof.
  revert r w. induction fuel as [|fuel IH]; intros r w Hinv; simpl; [done|].
  destruct (r <=? max_radius); [|done].
  pose proof (query_hospitals_around_effect ext lat lon r w) as He.
  destruct (query_hospitals_around ext lat lon r w) as [[|h hs] w1];
    simpl in He; eapply answers_cached_one_query in He; eauto.
Qed.

Lemma answers_cached_get_hospitals (ext : externals)
    (country state district area_name : string) (w : world) :
  answers_cached w →
  answers_cached (get_hospitals ext country state district area_name w).2.
Proof.
  intros Hinv.
  assert (∀ w0, answers_cached w0 →
            answers_cached
              (parent_area_fallback ext state district area_name w0).2)
    as Hparent.
  { intros w0 H0. rewrite parent_area_fallback_world.
    eapply answers_cached_one_query; [|done].
    apply query_hospitals_in_area_effect. }
  unfold get_hospitals.
  pose proof (query_hospitals_in_area_effect ext area_name district w) as H1.
  destruct (query_hospitals_in_area ext area_name district w)
    as [[|h hs] w1]; simpl in H1;
    eapply answers_cached_one_query in H1; eauto.
  pose proof (answers_cached_get_coords ext area_name district state country
                w1 H1) as H2.
  destruct (get_coords ext area_name district state country w1)
    as [[[lat lon]|] w2]; simpl in H2; [|by apply Hparent].
  pose proof (query_hospitals_in_bbox_effect ext lat lon (45 # 1000) w2)
    as H3.
  destruct (query_hospitals_in_bbox ext lat lon (45 # 1000) w2)
    as [[|h hs] w3]; simpl in H3;
    eapply answers_cached_one_query in H3; eauto.
  pose proof (answers_cached_radius_loop ext (radius_fuel 5000) lat lon 5000
                w3 H3) as H4.
  destruct (radius_loop ext (radius_fuel 5000) lat lon 5000 w3)
    as [[found|] w4]; simpl in H4; [done|]. by apply Hparent.
Qed.

Lemma reachable_answers_cached (ext : externals) (w : world) :
  reachable ext w → answers_cached w.
Proof.
  induction 1 as [| a d s c w _ IH | c s d a w _ IH].
  - intros a lat lon. simpl. rewrite lookup_empty. split; [|done].
    intros Hin. by apply elem_of_nil in Hin.
  - by apply answers_cached_get_coords.
  - by apply answers_cached_get_hospitals.
Qed.

(** C7, as the code has it.  At any point of the life of the process,
    [get_coords] asks the geocoding service exactly when the service has not
    yet returned a location for the address: once it has, every repeated
    request is answered from the cache with that location and the world is
    left as it is; as long as it has not (no match, or an error), every
    request is one more call to the service. *)
Theorem geocoder_asked_iff_unresolved (ext : externals)
    (area_name district state country : string) (w : world) :
  reachable ext w →
  let a := full_address_of area_name district state country in
  (∀ lat lon,
     EvGeocode a (GeoLocation lat lon) ∈ calls w →
     get_coords ext area_name district state country w
     = (Some (lat, lon), w)) ∧
  ((∀ lat lon, EvGeocode a (GeoLocation lat lon) ∉ calls w) →
   calls (get_coords ext area_name district state country w).2
   = calls w ++ [EvGeocode a (geocode ext (calls w) a)]).
Proof.
  intros Hreach a. apply reachable_answers_cached in Hreach.
  unfold get_coords. fold a. split.
  - intros lat lon Hin. apply Hreach in Hin. by rewrite Hin.
  - intros Hnone. destruct (coords_cache w !! a) as [[lat lon]|] eqn:Hc.
    + apply Hreach in Hc. by apply Hnone in Hc.
    + by destruct (geocode ext (calls w) a).
Qed.

Lemma geocoder_asked_witness :
  service_invocations "Shibuya, Shibuya, Tokyo, Japan"
    (get_coords Demo.geocoder_up "Shibuya" "Shibuya" "Tokyo" "Japan"
       (get_coords Demo.geocoder_up "Shibuya" "Shibuya" "Tokyo" "Japan"
                   initial_world).2).2 = 1%nat.
Proof.
  destruct (geocoder_asked_iff_unresolved Demo.geocoder_up
              "Shibuya" "Shibuya" "Tokyo" "Japan"
              (get_coords Demo.geocoder_up "Shibuya" "Shibuya" "Tokyo" "Japan"
                          initial_world).2) as [Hhit _].
  - apply reachable_get_coords, reachable_start.
  - rewrite (Hhit (35 # 1) (139 # 1)).
    + reflexivity.
    + vm_compute. apply list_elem_of_here.
Defined.

(** C7, as the claim has it, fails: a lookup that finds nothing is not
    stored, so the same request asks the service a second time. *)
Lemma failed_lookup_asked_again :
  ¬ (service_invocations "Atlantis, Shibuya, Tokyo, Japan"
       (get_coords Demo.shibuya "Atlantis" "Shibuya" "Tokyo" "Japan"
          (get_coords Demo.shibuya "Atlantis" "Shibuya" "Tokyo" "Japan"
                      initial_world).2).2 ≤ 1)%nat.
Proof. vm_compute. lia. Qed.

(** ** Enrichment *)

(** Writing an address changes nothing else in the list. *)
Lemma apply_result_map {B : Type} (p : facility → B)
    (facilities : list facility) (r : coords * string) :
  (∀ f a, p (set_address f a) = p f) →
  map p (apply_result facilities r) = map p facilities.
Proof.
  intros Hp. induction facilities as [|f fs IH]; simpl; [done|].
  destruct (coords_eqb _ _); simpl; [by rewrite Hp | by rewrite IH].
Qed.

Lemma apply_results_map {B : Type} (p : facility → B)
    (results : list (coords * string)) (facilities : list facility) :
  (∀ f a, p (set_address f a) = p f) →
  map p (foldl apply_result facilities results) = map p facilities.
Proof.
  intros Hp. revert facilities.
  induction results as [|r rs IH]; intros fs; simpl; [done|].
  by rewrite IH, apply_result_map.
Qed.

(** The distance of every facility is the one computed at lines 73-75. *)
Lemma node_to_medical_facility_distance (ext : externals) (nodes : list node)
    (found_in : string) (ref_lat ref_lon : option Q) (w : world) :
  map fac_distance
      (node_to_medical_facility ext nodes found_in ref_lat ref_lon w).1
  = map (λ n, fac_distance (make_facility ext found_in ref_lat ref_lon n))
        nodes.
Proof.
  unfold node_to_medical_facility.
  destruct (run_tasks ext _ w) as [rs w1]. simpl.
  rewrite apply_results_map by done. by rewrite map_map.
Qed.

(** C8, where the code departs from it.  A reference point on the equator
    or on the prime meridian is a reference point that was supplied, yet
    line 74 tests the coordinates for truth, zero is false, and every
    facility comes out without a distance. *)
Theorem zero_reference_coordinate_drops_distance (ext : externals)
    (nodes : list node) (found_in : string) (ref : Q) (w : world) :
  map fac_distance
      (node_to_medical_facility ext nodes found_in (Some 0%Q) (Some ref) w).1
  = map (λ _, None) nodes ∧
  map fac_distance
      (node_to_medical_facility ext nodes found_in (Some ref) (Some 0%Q) w).1
  = map (λ _, None) nodes.
Proof.
  rewrite !node_to_medical_facility_distance. unfold make_facility. simpl.
  by rewrite andb_false_r.
Qed.

(** What the code gets right of C8: with both coordinates different from
    zero the distance is the geodesic one, and without a reference point
    there is none. *)
Lemma distance_present_iff_truthy (ext : externals) (found_in : string)
    (ref_lat ref_lon : option Q) (n : node) :
  fac_distance (make_facility ext found_in ref_lat ref_lon n)
  = match ref_lat, ref_lon with
    | Some rlat, Some rlon =>
        if Qeq_bool rlat 0 || Qeq_bool rlon 0 then None
        else Some (geodesic ext (rlat, rlon) (node_lat n, node_lon n))
    | _, _ => None
    end.
Proof.
  unfold make_facility. simpl.
  destruct ref_lat as [rlat|], ref_lon as [rlon|]; simpl; try done.
  - by destruct (Qeq_bool rlat 0), (Qeq_bool rlon 0).
  - by destruct (Qeq_bool rlat 0).
Qed.

Lemma coords_eqb_trans_l (a b c : coords) :
  coords_eqb a b = true → coords_eqb a c = coords_eqb b c.
Proof.
  unfold coords_eqb. rewrite andb_true_iff, !Qeq_bool_iff. intros [H1 H2].
  apply eq_true_iff_eq. rewrite !andb_true_iff, !Qeq_bool_iff.
  by rewrite H1, H2.
Qed.

(** A facility that stands behind another one with the same coordinates is
    never written to, whatever results arrive and in whatever order. *)
Lemma apply_results_shadowed (f1 f2 : facility)
    (results : list (coords * string)) :
  coords_eqb (fac_lat f1, fac_lon f1) (fac_lat f2, fac_lon f2) = true →
  ∃ f1', foldl apply_result [f1; f2] results = [f1'; f2] ∧
         fac_lat f1' = fac_lat f1 ∧ fac_lon f1' = fac_lon f1.
Proof.
  intros Heq. revert f1 Heq.
  induction results as [|r rs IH]; intros f1 Heq; simpl; [by exists f1|].
  rewrite <-(coords_eqb_trans_l _ _ r.1 Heq).
  destruct (coords_eqb (fac_lat f1, fac_lon f1) r.1).
  - destruct (IH (set_address f1 r.2) Heq) as (f1' & -> & ? & ?).
    by exists f1'.
  - by apply IH.
Qed.

(** C6, where the code departs from it.  A node without an address in its
    tags that comes after a node with the same coordinates: its coordinates
    are queued for reverse geocoding, but every result for them is written
    to the first of the two records (the scan of lines 98-101 stops at the
    first match), and the second record keeps [None] as its address,
    whatever the reverse geocoder answers. *)
Theorem shared_coordinates_leave_address_missing (ext : externals)
    (n1 n2 : node) (found_in : string) (ref_lat ref_lon : option Q)
    (w : world) :
  address_from_tags (node_tags n2) = None →
  coords_eqb (node_lat n1, node_lon n1) (node_lat n2, node_lon n2) = true →
  map fac_address
      (node_to_medical_facility ext [n1; n2] found_in ref_lat ref_lon w).1
  !! 1%nat = Some None.
Proof.
  intros H2 Heq. unfold node_to_medical_facility.
  destruct (run_tasks ext _ w) as [rs w1]. simpl.
  destruct (apply_results_shadowed
              (make_facility ext found_in ref_lat ref_lon n1)
              (make_facility ext found_in ref_lat ref_lon n2) rs Heq)
    as (f1' & -> & _). simpl. by rewrite H2.
Qed.

Lemma shared_coordinates_witness :
  map fac_address
      (node_to_medical_facility Demo.shibuya
         [Demo.ground_floor; Demo.first_floor] "Shibuya" None None
         initial_world).1
  !! 1%nat = Some None.
Proof.
  apply (shared_coordinates_leave_address_missing Demo.shibuya
           Demo.ground_floor Demo.first_floor "Shibuya" None None
           initial_world); reflexivity.
Defined.

(** ** Enrichment when coordinates do not collide *)

(** What [fetch_reverse_geocode] returns: the key it was given and an
    address that is in the cache afterwards, be it the address found, the
    "Address not found" of line 45 or the text with the coordinates of line
    51. *)
Lemma fetch_reverse_geocode_address (ext : externals) (c : coords)
    (w : world) :
  (fetch_reverse_geocode ext c w).1.1 = c ∧
  reverse_cache (fetch_reverse_geocode ext c w).2 !! cache_key c
  = Some (fetch_reverse_geocode ext c w).1.2 ∧
  match reverse_cache w !! cache_key c with
  | Some cached =>
      (fetch_reverse_geocode ext c w).1.2 = cached ∧
      (fetch_reverse_geocode ext c w).2 = w
  | None =>
      (fetch_reverse_geocode ext c w).1.2
      = match reverse_geocode ext (calls w) c with
        | RevLocation a => a
        | RevNone => "Address not found"
        | RevRaise =>
            "Coordinates: (" +:+ format_num ext c.1 +:+ ", " +:+
            format_num ext c.2 +:+ ")"
        end
  end.
Proof.
  unfold fetch_reverse_geocode. destruct c as [lat lon].
  destruct (reverse_cache w !! cache_key (lat, lon)) as [cached|] eqn:Hc;
    simpl; [done|].
  by rewrite lookup_insert_eq.
Qed.

Lemma run_tasks_keys (ext : externals) (tasks : list coords) (w : world) :
  map fst (run_tasks ext tasks w).1 = tasks.
Proof.
  revert w. induction tasks as [|c tasks IH]; intros w; simpl; [done|].
  pose proof (fetch_reverse_geocode_address ext c w) as [Hk _].
  destruct (fetch_reverse_geocode ext c w) as [r w1]. simpl in Hk.
  pose proof (IH w1) as Hrest.
  destruct (run_tasks ext tasks w1) as [rs w2]. simpl in *. congruence.
Qed.

Lemma coords_eqb_refl (a : coords) : coords_eqb a a = true.
Proof. unfold coords_eqb. by rewrite !Qeq_bool_refl. Qed.

Lemma coords_eqb_sym (a b : coords) : coords_eqb a b = coords_eqb b a.
Proof.
  unfold coords_eqb. apply eq_true_iff_eq.
  rewrite !andb_true_iff, !Qeq_bool_iff.
  split; intros [H1 H2]; by rewrite H1, H2.
Qed.

Lemma apply_result_length (facilities : list facility)
    (r : coords * string) :
  length (apply_result facilities r) = length facilities.
Proof.
  induction facilities as [|f fs IH]; simpl; [done|].
  destruct (coords_eqb _ _); simpl; by rewrite ?IH.
Qed.

Lemma apply_results_length (results : list (coords * string))
    (facilities : list facility) :
  length (foldl apply_result facilities results) = length facilities.
Proof.
  revert facilities. induction results as [|r rs IH]; intros fs; simpl;
    [done|].
  by rewrite IH, apply_result_length.
Qed.

(** One result, seen from one position of the list: the coordinates stay,
    an address that is there stays, and a matching result arrives if no
    earlier record has these coordinates. *)
Lemma apply_result_lookup (facilities : list facility) (r : coords * string)
    (j : nat) (f : facility) :
  facilities !! j = Some f →
  ∃ f', apply_result facilities r !! j = Some f' ∧
        (fac_lat f', fac_lon f') = (fac_lat f, fac_lon f) ∧
        (is_Some (fac_address f) → is_Some (fac_address f')) ∧
        (coords_eqb (fac_lat f, fac_lon f) r.1 = true →
         (∀ i g, (i < j)%nat → facilities !! i = Some g →
                 coords_eqb (fac_lat g, fac_lon g) r.1 = false) →
         is_Some (fac_address f')).
Proof.
  revert j. induction facilities as [|g gs IH]; intros j Hj; [done|].
  simpl. destruct (coords_eqb (fac_lat g, fac_lon g) r.1) eqn:Hg.
  - destruct j as [|j]; simpl in Hj.
    + injection Hj as ->. exists (set_address f r.2). simpl.
      repeat split; eauto.
    + exists f. simpl. repeat split; [done..|].
      intros _ Hfirst. specialize (Hfirst 0%nat g). simpl in Hfirst.
      rewrite Hfirst in Hg; [done | lia | done].
  - destruct j as [|j]; simpl in Hj.
    + injection Hj as ->. exists f. simpl. repeat split; [done..|].
      intros Hf. congruence.
    + destruct (IH j Hj) as (f' & Hl & Hc & Hkeep & Hset).
      exists f'. simpl. repeat split; [done..|].
      intros Hf Hfirst. apply Hset; [done|].
      intros i g' Hi Hg'. apply (Hfirst (S i) g'); [lia | done].
Qed.

(** All results, seen from one position that no earlier record shadows. *)
Lemma apply_results_lookup (results : list (coords * string))
    (facilities : list facility) (j : nat) (f : facility) :
  facilities !! j = Some f →
  (∀ i g, (i < j)%nat → facilities !! i = Some g →
          coords_eqb (fac_lat g, fac_lon g) (fac_lat f, fac_lon f) = false) →
  is_Some (fac_address f) ∨
    (∃ r, r ∈ results ∧ coords_eqb (fac_lat f, fac_lon f) r.1 = true) →
  ∃ f', foldl apply_result facilities results !! j = Some f' ∧
        is_Some (fac_address f').
Proof.
  revert facilities f.
  induction results as [|r rs IH]; intros fs f Hj Hfirst Hsrc; simpl.
  - destruct Hsrc as [Hsome|(r & Hr & _)]; [by exists f|].
    by apply elem_of_nil in Hr.
  - destruct (apply_result_lookup fs r j f Hj)
      as (f1 & Hj1 & Hc1 & Hkeep & Hset).
    injection Hc1 as Hlat Hlon.
    eapply (IH _ f1 Hj1).
    + intros i g1 Hi Hg1. rewrite Hlat, Hlon.
      assert (∃ g, fs !! i = Some g ∧
                   (fac_lat g1, fac_lon g1) = (fac_lat g, fac_lon g))
        as (g & Hg & Hcg).
      { destruct (fs !! i) as [g|] eqn:Hg.
        - destruct (apply_result_lookup fs r i g Hg) as (g' & Hg' & ? & _).
          exists g. split; [done|]. congruence.
        - apply lookup_ge_None in Hg.
          apply lookup_lt_Some in Hg1.
          rewrite apply_result_length in Hg1. lia. }
      injection Hcg as -> ->. by eapply Hfirst.
    + rewrite Hlat, Hlon.
      destruct Hsrc as [Hsome|(r' & Hr' & Hm)]; [left; by apply Hkeep|].
      apply elem_of_cons in Hr' as [->|Hr']; [|right; by exists r'].
      left. apply Hset; [done|].
      intros i g Hi Hg.
      rewrite (coords_eqb_sym _ r.1), <-(coords_eqb_trans_l _ _ _ Hm).
      rewrite coords_eqb_sym in Hm. rewrite coords_eqb_sym.
      by eapply Hfirst.
Qed.

(** When no node has the coordinates of an earlier node, every facility has
    an address after enrichment. *)
Lemma distinct_coordinates_all_addressed (ext : externals)
    (nodes : list node) (found_in : string) (ref_lat ref_lon : option Q)
    (w : world) :
  (∀ i j ni nj, (i < j)%nat → nodes !! i = Some ni → nodes !! j = Some nj →
     coords_eqb (node_lat ni, node_lon ni) (node_lat nj, node_lon nj)
     = false) →
  Forall (λ f, is_Some (fac_address f))
    (node_to_medical_facility ext nodes found_in ref_lat ref_lon w).1.
Proof.
  intros Hdistinct. unfold node_to_medical_facility.
  set (fs := map (make_facility ext found_in ref_lat ref_lon) nodes).
  pose proof (run_tasks_keys ext (coords_to_geocode fs) w) as Hkeys.
  destruct (run_tasks ext (coords_to_geocode fs) w) as [rs w1]. simpl in *.
  apply Forall_lookup. intros j f' Hj'.
  assert (is_Some (fs !! j)) as [f Hj].
  { apply lookup_lt_is_Some. apply lookup_lt_Some in Hj'.
    by rewrite apply_results_length in Hj'. }
  destruct (apply_results_lookup rs fs j f Hj) as (f'' & Hj'' & Hsome).
  - intros i g Hi Hg. unfold fs in Hj, Hg.
    rewrite list_lookup_fmap in Hj, Hg.
    destruct (nodes !! i) as [ni|] eqn:Hni; [|done].
    destruct (nodes !! j) as [nj|] eqn:Hnj; [|done].
    simpl in Hj, Hg. injection Hj as <-. injection Hg as <-. simpl.
    by eapply Hdistinct.
  - destruct (fac_address f) as [a|] eqn:Ha; [left; by eexists|right].
    assert ((fac_lat f, fac_lon f) ∈ coords_to_geocode fs) as Hin.
    { unfold coords_to_geocode. apply list_elem_of_omap.
      exists f. split; [by eapply list_elem_of_lookup_2|]. by rewrite Ha. }
    rewrite <-Hkeys in Hin. apply list_elem_of_fmap in Hin as (r & Hr & Hin).
    exists r. split; [done|]. rewrite Hr. apply coords_eqb_refl.
  - congruence.
Qed.

(** ** The radius stage *)

Lemma query_hospitals_around_sorted (ext : externals) (lat lon : Q)
    (radius : Z) (w : world) :
  sorted_by distance_key (query_hospitals_around ext lat lon radius w).1.
Proof.
  unfold query_hospitals_around.
  destruct (api_query ext (calls w) _); [|done].
  destruct (node_to_medical_facility ext nodes _ _ _ _) as [hs w2]. simpl.
  apply list_sort_sorted.
Qed.

(** What the radius stage returns is in ascending order of the key of line
    170 and has at most ten records. *)
Lemma radius_loop_sorted_capped (ext : externals) (fuel : nat) (lat lon : Q)
    (r : Z) (w w' : world) (found : list facility) :
  radius_loop ext fuel lat lon r w = (Some found, w') →
  sorted_by distance_key found ∧ (length found ≤ 10)%nat.
Proof.
  revert r w. induction fuel as [|fuel IH]; intros r w; simpl; [done|].
  destruct (r <=? max_radius); [|done].
  pose proof (query_hospitals_around_sorted ext lat lon r w) as Hs.
  destruct (query_hospitals_around ext lat lon r w) as [[|h hs] w1].
  - apply IH.
  - intros [= <- <-]. split.
    + exact (sorted_by_take distance_key 10 (h :: hs) Hs).
    + change (length (take 10 (h :: hs)) ≤ 10)%nat. rewrite length_take. lia.
Qed.

(** A distance of zero is falsy: its key is infinite. *)
Lemma distance_key_zero (h : facility) (d : Q) :
  fac_distance h = Some d → (d == 0)%Q → distance_key h = KInf.
Proof.
  intros Hd Hz. unfold distance_key. rewrite Hd. simpl.
  apply Qeq_bool_iff in Hz. by rewrite Hz.
Qed.

Lemma distance_key_positive (h : facility) (d : Q) :
  fac_distance h = Some d → (0 < d)%Q → distance_key h = KFinite d.
Proof.
  intros Hd Hpos. unfold distance_key. rewrite Hd. simpl.
  destruct (Qeq_bool d 0) eqn:Hz; [|done].
  apply Qeq_bool_iff in Hz. rewrite Hz in Hpos.
  by apply Qlt_irrefl in Hpos.
Qed.

(** C10.  In the list [query_hospitals_around] returns, a facility whose
    distance is exactly zero stands after every facility whose distance is
    positive: wherever the two are in the list, the one at distance zero has
    the larger index. *)
Theorem zero_distance_sorts_after_positive (ext : externals) (lat lon : Q)
    (radius : Z) (w : world) (i j : nat) (here there : facility)
    (d0 d : Q) :
  (query_hospitals_around ext lat lon radius w).1 !! i = Some there →
  (query_hospitals_around ext lat lon radius w).1 !! j = Some here →
  fac_distance here = Some d0 → (d0 == 0)%Q →
  fac_distance there = Some d → (0 < d)%Q →
  (i < j)%nat.
Proof.
  intros Hi Hj Hd0 Hz Hd Hpos.
  pose proof (query_hospitals_around_sorted ext lat lon radius w) as Hs.
  pose proof (distance_key_zero here d0 Hd0 Hz) as Khere.
  pose proof (distance_key_positive there d Hd Hpos) as Kthere.
  destruct (lt_eq_lt_dec i j) as [[Hlt|Heq]|Hgt]; [done| |].
  - subst j. rewrite Hi in Hj. injection Hj as <-. congruence.
  - pose proof (sorted_by_lookup distance_key _ j i here there Hs Hgt Hj Hi)
      as Hle.
    by rewrite Khere, Kthere in Hle.
Qed.

Lemma zero_distance_witness : (0 < 1)%nat.
Proof.
  apply (zero_distance_sorts_after_positive Demo.on_the_spot
           (35 # 1) (139 # 1) 5000 initial_world 0 1
           (make_facility Demo.on_the_spot "within 5.0 km"
              (Some (35 # 1)) (Some (139 # 1)) Demo.spot_clinic)
           (make_facility Demo.on_the_spot "within 5.0 km"
              (Some (35 # 1)) (Some (139 # 1)) Demo.north_pharmacy)
           (0 # 1) (111 # 100)); reflexivity.
Defined.

(** C2, where the code departs from it.  The named area is unknown, the
    bounding-box query fails, the place is geocoded to (35, 139) and the
    query within 5 km finds a clinic at that very point and a pharmacy 1.11
    km away.  The list returned has the pharmacy first and the clinic, at
    distance zero, second: it is not in ascending order of distance. *)
Theorem radius_stage_puts_zero_distance_last :
  ∃ hospitals,
    (get_hospitals Demo.on_the_spot "Japan" "Tokyo" "Shibuya" "Shibuya Clinic"
                   initial_world).1 = Ok hospitals ∧
    map fac_name hospitals = ["North Pharmacy"; "Shibuya Clinic"] ∧
    map fac_distance hospitals = [Some (111 # 100); Some (0 # 1)] ∧
    ¬ sorted_by distance_or_last hospitals.
Proof.
  eexists. split; [reflexivity|]. split; [reflexivity|].
  split; [reflexivity|].
  intros [Hfirst _]. apply Forall_cons in Hfirst as [Hle _].
  vm_compute in Hle. by apply Hle.
Qed.

(** What the code gets right of C2: when the loop returns, it has asked
    for the radii from the first one on, 5 km apart, in this order; every
    query before the last found nothing, the last one, at a radius of at
    most 50 km, is the first that found anything, and what is returned are
    the first ten records of its list.  [ws] are the worlds the queries
    started in, one after the other. *)
Lemma radius_loop_first_hit (ext : externals) (fuel : nat) (lat lon : Q)
    (r : Z) (w w' : world) (found : list facility) :
  radius_loop ext fuel lat lon r w = (Some found, w') →
  ∃ (k : nat) (ws : list world) (w0 : world),
    r + Z.of_nat k * radius_step <= max_radius ∧
    length ws = S k ∧ ws !! 0%nat = Some w ∧ ws !! k = Some w0 ∧
    (∀ i wi wi', (i < k)%nat → ws !! i = Some wi → ws !! S i = Some wi' →
       query_hospitals_around ext lat lon (r + Z.of_nat i * radius_step) wi
       = ([], wi')) ∧
    query_hospitals_around ext lat lon (r + Z.of_nat k * radius_step) w0
    = ((query_hospitals_around ext lat lon
          (r + Z.of_nat k * radius_step) w0).1, w') ∧
    (query_hospitals_around ext lat lon
       (r + Z.of_nat k * radius_step) w0).1 ≠ [] ∧
    found = take 10 (query_hospitals_around ext lat lon
                       (r + Z.of_nat k * radius_step) w0).1 ∧
    found ≠ [] ∧
    overpass_queries (calls w')
    = overpass_queries (calls w)
      ++ map (λ i, QAround (r + Z.of_nat i * radius_step) lat lon)
             (seq 0 (S k)).
Proof.
  revert r w. induction fuel as [|fuel IH]; intros r w; simpl; [done|].
  destruct (Z.leb_spec r max_radius) as [Hr|Hr]; [|done].
  pose proof (query_hospitals_around_effect ext lat lon r w) as He.
  destruct (query_hospitals_around ext lat lon r w) as [[|h hs] w1] eqn:Hq;
    simpl in He; apply one_query_queries in He as [He _].
  - intros Hloop.
    destruct (IH _ _ Hloop)
      as (k & ws & w0 & Hle & Hlen & H0 & Hk & Hmiss & Hw & Hhit & Hf & Hne
          & Hqs).
    exists (S k), (w :: ws), w0.
    replace (r + Z.of_nat (S k) * radius_step)
      with (r + radius_step + Z.of_nat k * radius_step) by lia.
    split; [done|]. split; [simpl; by rewrite Hlen|].
    split; [done|]. split; [done|].
    split.
    { intros [|i] wi wi' Hi Hwi Hwi'; simpl in Hwi, Hwi'.
      - injection Hwi as <-. rewrite H0 in Hwi'. injection Hwi' as <-.
        replace (r + Z.of_nat 0 * radius_step) with r by lia. exact Hq.
      - replace (r + Z.of_nat (S i) * radius_step)
          with (r + radius_step + Z.of_nat i * radius_step) by lia.
        apply Hmiss; [lia | done | done]. }
    split; [done|]. split; [done|]. split; [done|]. split; [done|].
    rewrite Hqs, He.
    rewrite <-app_assoc. f_equal.
    change (seq 0 (S (S k))) with (0%nat :: seq 1 (S k)).
    rewrite <-seq_shift, map_map. cbn [app]. f_equal.
    + f_equal. lia.
    + apply map_ext. intros i. f_equal. lia.
  - intros [= <- <-]. exists 0%nat, [w], w.
    replace (r + Z.of_nat 0 * radius_step) with r by lia.
    rewrite Hq, He.
    split; [done|]. split; [done|]. split; [done|]. split; [done|].
    split; [intros i wi wi' Hi; lia|].
    repeat split; done.
Qed.

(** The radius stage inside [get_hospitals]: what the loop returns is what
    [get_hospitals] returns. *)
Lemma get_hospitals_radius_stage (ext : externals)
    (country state district area_name : string) (lat lon : Q)
    (w w1 w2 w3 w4 : world) (found : list facility) :
  query_hospitals_in_area ext area_name district w = ([], w1) →
  get_coords ext area_name district state country w1 = (Some (lat, lon), w2) →
  query_hospitals_in_bbox ext lat lon (45 # 1000) w2 = ([], w3) →
  radius_loop ext (radius_fuel 5000) lat lon 5000 w3 = (Some found, w4) →
  get_hospitals ext country state district area_name w = (Ok found, w4) ∧
  sorted_by distance_key found ∧ (length found ≤ 10)%nat.
Proof.
  intros H1 H2 H3 H4. split.
  - unfold get_hospitals. by rewrite H1, H2, H3, H4.
  - by eapply radius_loop_sorted_capped.
Qed.

(** * Further properties of the code *)

(** ** Addresses from tags *)

Lemma join_nonempty (sep : string) (parts : list string) :
  parts ≠ [] → Forall (λ s, s ≠ "") parts → join sep parts ≠ "".
Proof.
  destruct parts as [|p [|q rest]]; [done|..]; intros _ Hall;
    apply Forall_cons in Hall as [Hp _]; simpl; by destruct p.
Qed.

Lemma truthy_str_Some (x : option string) :
  truthy_str x = true → ∃ s, x = Some s ∧ s ≠ "".
Proof. destruct x as [[|c s]|]; simpl; try done. intros _. by eexists. Qed.

Lemma address_components_truthy (tags : gmap string string)
    (keys : list string) :
  Forall (λ s, s ≠ "")
    (omap (λ k, if truthy_str (tags !! k) then tags !! k else None) keys).
Proof.
  induction keys as [|k keys IH]; simpl; [constructor|].
  destruct (truthy_str (tags !! k)) eqn:Hk; [|done].
  apply truthy_str_Some in Hk as (s & Hs & Hne). rewrite Hs. simpl.
  by constructor.
Qed.

Lemma address_components_nil (tags : gmap string string)
    (keys : list string) :
  omap (λ k, if truthy_str (tags !! k) then tags !! k else None) keys = [] ↔
  Forall (λ k, truthy_str (tags !! k) = false) keys.
Proof.
  induction keys as [|k keys IH]; simpl; [done|].
  rewrite Forall_cons. destruct (truthy_str (tags !! k)) eqn:Hk.
  - apply truthy_str_Some in Hk as (s & Hs & _). rewrite Hs. simpl.
    split; [done | by intros [? _]].
  - rewrite IH. tauto.
Qed.

Lemma address_from_tags_cases (tags : gmap string string) :
  (address_from_tags tags = None ∧ no_address_tag tags) ∨
  (∃ a, address_from_tags tags = Some a ∧ a ≠ "" ∧ ¬ no_address_tag tags).
Proof.
  unfold address_from_tags, no_address_tag.
  destruct (truthy_str (tags !! "addr:full")) eqn:Hfull.
  - apply truthy_str_Some in Hfull as (s & Hs & Hne). right. exists s.
    rewrite Hs. split; [done|]. split; [done|]. simpl.
    destruct s; [done|]. by intros [? _].
  - pose proof (address_components_nil tags address_keys) as Hnil.
    pose proof (address_components_truthy tags address_keys) as Htruthy.
    destruct (omap _ address_keys) as [|p parts] eqn:Hparts.
    + left. split; [done|]. split; [done|]. by apply Hnil.
    + right. exists (join ", " (p :: parts)). split; [done|]. split.
      * by apply join_nonempty.
      * intros [_ Hall]. by apply Hnil in Hall.
Qed.

(** Lines 66-71.  A node is left without an address exactly when all six
    address tags (addr:full, addr:housenumber, addr:street, addr:city,
    addr:state, addr:postcode) are missing or empty; and an address that is
    found is never the empty string (an empty addr:full gives way to the
    parts). *)
Theorem address_from_tags_none_iff (tags : gmap string string) :
  (address_from_tags tags = None ↔ no_address_tag tags) ∧
  address_from_tags tags ≠ Some "".
Proof.
  destruct (address_from_tags_cases tags) as [[-> Hno]|(a & -> & Hne & Hsome)].
  - done.
  - split; [split; [done | by intros ?]|]. congruence.
Qed.

Lemma address_from_tags_truthy (tags : gmap string string) :
  truthy_str (address_from_tags tags)
  = bool_decide (address_from_tags tags ≠ None).
Proof.
  destruct (address_from_tags_cases tags) as [[-> _]|(a & -> & Hne & _)];
    [done|].
  by destruct a.
Qed.

(** ** Enrichment, continued *)

(** Lines 57-104.  Enrichment returns one facility for each node, in the
    order of the nodes, and everything but the address is as the first pass
    computed it from the node: the reverse-geocoding pass moves nothing and
    touches no other field. *)
Theorem enrichment_keeps_order_and_fields (ext : externals)
    (nodes : list node) (found_in : string) (ref_lat ref_lon : option Q)
    (w : world) :
  let facilities :=
    (node_to_medical_facility ext nodes found_in ref_lat ref_lon w).1 in
  length facilities = length nodes ∧
  ∀ i n, nodes !! i = Some n →
    ∃ f, facilities !! i = Some f ∧
         fac_name f = default "Unknown" (node_tags n !! "name") ∧
         fac_type f = facility_type (node_tags n) ∧
         fac_lat f = node_lat n ∧ fac_lon f = node_lon n ∧
         fac_found_in f = found_in ∧
         fac_distance f
         = fac_distance (make_facility ext found_in ref_lat ref_lon n).
Proof.
  unfold node_to_medical_facility.
  destruct (run_tasks ext _ w) as [rs w1]. simpl.
  set (fs := map (make_facility ext found_in ref_lat ref_lon) nodes).
  split; [unfold fs; by rewrite apply_results_length, length_map|].
  intros i n Hn.
  set (p := λ f, (fac_name f, fac_type f, fac_lat f, fac_lon f,
                  fac_found_in f, fac_distance f)).
  assert (map p (foldl apply_result fs rs) !! i
          = Some (p (make_facility ext found_in ref_lat ref_lon n))) as Hp.
  { rewrite apply_results_map by done. unfold fs.
    by rewrite !list_lookup_fmap, Hn. }
  rewrite list_lookup_fmap in Hp.
  destruct (foldl apply_result fs rs !! i) as [f|]; [|done].
  exists f. split; [done|]. simpl in Hp. unfold p in Hp.
  injection Hp as -> -> -> -> -> ->. done.
Qed.

(** Lines 87-101.  When every node has an address in its tags, enrichment is
    the first pass alone: no service is called and the caches and the
    history are left as they were. *)
Theorem addressed_nodes_need_no_service (ext : externals)
    (nodes : list node) (found_in : string) (ref_lat ref_lon : option Q)
    (w : world) :
  Forall (λ n, address_from_tags (node_tags n) ≠ None) nodes →
  node_to_medical_facility ext nodes found_in ref_lat ref_lon w
  = (map (make_facility ext found_in ref_lat ref_lon) nodes, w).
Proof.
  intros Hall. unfold node_to_medical_facility.
  assert (coords_to_geocode
            (map (make_facility ext found_in ref_lat ref_lon) nodes) = [])
    as ->; [|done].
  induction Hall as [|n ns Hn _ IH]; [done|].
  unfold coords_to_geocode in *. simpl.
  rewrite address_from_tags_truthy, bool_decide_eq_true_2 by done.
  apply IH.
Qed.

Lemma addressed_nodes_witness :
  node_to_medical_facility Demo.all_down [Demo.clinic; Demo.pharmacy]
                           "Shibuya" None None initial_world
  = (map (make_facility Demo.all_down "Shibuya" None None)
         [Demo.clinic; Demo.pharmacy], initial_world).
Proof.
  apply (addressed_nodes_need_no_service Demo.all_down
           [Demo.clinic; Demo.pharmacy] "Shibuya" None None initial_world).
  repeat constructor; vm_compute; discriminate.
Defined.

(** Lines 35-53.  Whatever a reverse lookup came to (an address, no match,
    or an exception), the address it returned is in the cache: the same
    lookup again returns the same address, calls no service and changes
    nothing. *)
Theorem reverse_lookup_repeats_from_cache (ext : externals) (c : coords)
    (w : world) :
  fetch_reverse_geocode ext c (fetch_reverse_geocode ext c w).2
  = fetch_reverse_geocode ext c w.
Proof.
  pose proof (fetch_reverse_geocode_address ext c w) as (Hk & Hc & _).
  destruct (fetch_reverse_geocode ext c w) as [[k a] w1]. simpl in *.
  subst k. unfold fetch_reverse_geocode. destruct c as [lat lon].
  by rewrite Hc.
Qed.

Lemma coords_to_geocode_cons (f : facility) (facilities : list facility) :
  coords_to_geocode (f :: facilities)
  = if truthy_str (fac_address f) then coords_to_geocode facilities
    else (fac_lat f, fac_lon f) :: coords_to_geocode facilities.
Proof. unfold coords_to_geocode. simpl. by destruct (truthy_str _). Qed.

(** What the tasks add to the history: calls to the reverse geocoder, each
    for one of the queued coordinates, and no more calls than tasks. *)
Lemma run_tasks_calls (ext : externals) (tasks : list coords) (w : world) :
  ∃ evs, calls (run_tasks ext tasks w).2 = calls w ++ evs ∧
         (length evs ≤ length tasks)%nat ∧
         Forall (λ e, ∃ c out, e = EvReverse c out ∧ c ∈ tasks) evs.
Proof.
  revert w. induction tasks as [|c tasks IH]; intros w; simpl.
  - exists []. rewrite app_nil_r. split; [done|].
    split; [simpl; lia | constructor].
  - assert (∃ e1, calls (fetch_reverse_geocode ext c w).2 = calls w ++ e1 ∧
                  (length e1 ≤ 1)%nat ∧
                  Forall (λ e, ∃ out, e = EvReverse c out) e1)
      as (e1 & H1 & L1 & F1).
    { unfold fetch_reverse_geocode. destruct c as [lat lon].
      destruct (reverse_cache w !! _); simpl.
      - exists []. rewrite app_nil_r. split; [done|].
        split; [simpl; lia | constructor].
      - eexists [_]. split; [done|]. split; [simpl; lia|].
        repeat constructor. by eexists. }
    destruct (fetch_reverse_geocode ext c w) as [r w1]. simpl in H1.
    destruct (IH w1) as (e2 & H2 & L2 & F2).
    destruct (run_tasks ext tasks w1) as [rs w2]. simpl in *.
    exists (e1 ++ e2). rewrite H2, H1, <-app_assoc. split; [done|].
    split; [rewrite length_app; lia|].
    apply Forall_app. split.
    + eapply Forall_impl; [exact F1|]. intros e [out ->].
      exists c, out. split; [done | apply list_elem_of_here].
    + eapply Forall_impl; [exact F2|]. intros e (c' & out & -> & Hin).
      exists c', out. split; [done | by apply list_elem_of_further].
Qed.

(** Lines 87-101.  Enrichment calls nothing but the reverse geocoder, and
    only for the coordinates of a node of the batch whose tags give no
    address; it makes at most one call for each such node. *)
Theorem enrichment_calls_for_missing_addresses (ext : externals)
    (nodes : list node) (found_in : string) (ref_lat ref_lon : option Q)
    (w : world) :
  ∃ evs,
    calls (node_to_medical_facility ext nodes found_in ref_lat ref_lon w).2
    = calls w ++ evs ∧
    (length evs
     ≤ length (filter (λ n, address_from_tags (node_tags n) = None) nodes))%nat
    ∧
    Forall (λ e, ∃ n out, e = EvReverse (node_lat n, node_lon n) out ∧
                          n ∈ nodes ∧
                          address_from_tags (node_tags n) = None) evs.
Proof.
  unfold node_to_medical_facility.
  set (fs := map (make_facility ext found_in ref_lat ref_lon) nodes).
  destruct (run_tasks_calls ext (coords_to_geocode fs) w)
    as (evs & Hcalls & Hlen & Hall).
  destruct (run_tasks ext (coords_to_geocode fs) w) as [rs w1]. simpl in *.
  exists evs. split; [done|].
  assert (coords_to_geocode fs
          = map (λ n, (node_lat n, node_lon n))
                (filter (λ n, address_from_tags (node_tags n) = None) nodes))
    as Htasks.
  { unfold fs. clear.
    induction nodes as [|n ns IH]; [done|].
    cbn [map]. rewrite coords_to_geocode_cons, IH, filter_cons.
    cbn [make_facility fac_address fac_lat fac_lon].
    rewrite address_from_tags_truthy.
    destruct (decide (address_from_tags (node_tags n) = None)) as [Hn|Hn].
    - by rewrite bool_decide_eq_false_2 by tauto.
    - by rewrite bool_decide_eq_true_2. }
  rewrite Htasks in Hlen, Hall. rewrite length_map in Hlen. split; [done|].
  eapply Forall_impl; [exact Hall|]. intros e (c & out & -> & Hin).
  apply list_elem_of_fmap in Hin as (n & -> & Hn).
  apply list_elem_of_filter in Hn as [Hnone Hn]. by exists n, out.
Qed.

Lemma distinct_coordinates_witness :
  Forall (λ f, is_Some (fac_address f))
    (node_to_medical_facility Demo.all_down
       [Demo.pharmacy; Demo.clinic; Demo.ground_floor] "Shibuya" None None
       initial_world).1.
Proof.
  apply (distinct_coordinates_all_addressed Demo.all_down
           [Demo.pharmacy; Demo.clinic; Demo.ground_floor] "Shibuya"
           None None initial_world).
  intros [|[|[|i]]] [|[|[|j]]] ni nj Hij Hi Hj; simpl in Hi, Hj;
    try lia; try discriminate;
    injection Hi as <-; injection Hj as <-; reflexivity.
Defined.

Lemma coords_to_geocode_nodes (ext : externals) (nodes : list node)
    (found_in : string) (ref_lat ref_lon : option Q) :
  coords_to_geocode (map (make_facility ext found_in ref_lat ref_lon) nodes)
  = map (λ n, (node_lat n, node_lon n))
        (filter (λ n, address_from_tags (node_tags n) = None) nodes).
Proof.
  induction nodes as [|n ns IH]; [done|].
  cbn [map]. rewrite coords_to_geocode_cons, IH, filter_cons.
  cbn [make_facility fac_address fac_lat fac_lon].
  rewrite address_from_tags_truthy.
  destruct (decide (address_from_tags (node_tags n) = None)) as [Hn|Hn].
  - by rewrite bool_decide_eq_false_2 by tauto.
  - by rewrite bool_decide_eq_true_2.
Qed.

Lemma apply_result_lookup_ne (facilities : list facility)
    (r : coords * string) (j : nat) (f : facility) :
  facilities !! j = Some f →
  coords_eqb (fac_lat f, fac_lon f) r.1 = false →
  apply_result facilities r !! j = Some f.
Proof.
  revert j. induction facilities as [|g gs IH]; intros j Hj Hne; [done|].
  simpl. destruct (coords_eqb (fac_lat g, fac_lon g) r.1) eqn:Hg.
  - destruct j as [|j]; simpl in *; [|done]. congruence.
  - destruct j as [|j]; simpl in *; [done|]. by apply IH.
Qed.

Lemma apply_results_lookup_ne (results : list (coords * string))
    (facilities : list facility) (j : nat) (f : facility) :
  facilities !! j = Some f →
  Forall (λ r, coords_eqb (fac_lat f, fac_lon f) r.1 = false) results →
  foldl apply_result facilities results !! j = Some f.
Proof.
  intros Hj Hall. revert facilities Hj.
  induction Hall as [|r rs Hr _ IH]; intros fs Hj; simpl; [done|].
  apply IH. by apply apply_result_lookup_ne.
Qed.

(** Lines 91-101.  A facility whose node has an address in its tags keeps
    that address through the reverse-geocoding pass, provided no node
    without an address in the batch has the same coordinates. *)
Theorem tag_address_kept (ext : externals) (nodes : list node)
    (found_in : string) (ref_lat ref_lon : option Q) (w : world)
    (j : nat) (n : node) (a : string) :
  nodes !! j = Some n →
  address_from_tags (node_tags n) = Some a →
  (∀ m, m ∈ nodes → address_from_tags (node_tags m) = None →
        coords_eqb (node_lat n, node_lon n) (node_lat m, node_lon m) = false) →
  fac_address
    <$> (node_to_medical_facility ext nodes found_in ref_lat ref_lon w).1 !! j
  = Some (Some a).
Proof.
  intros Hn Ha Hfree. unfold node_to_medical_facility.
  pose proof (run_tasks_keys ext
    (coords_to_geocode (map (make_facility ext found_in ref_lat ref_lon) nodes))
    w) as Hkeys.
  destruct (run_tasks ext _ w) as [rs w1]. simpl in *.
  rewrite coords_to_geocode_nodes in Hkeys.
  rewrite (apply_results_lookup_ne rs _ j
             (make_facility ext found_in ref_lat ref_lon n)).
  - simpl. by rewrite Ha.
  - by rewrite list_lookup_fmap, Hn.
  - apply Forall_forall. intros r Hr. simpl.
    assert (r.1 ∈ map fst rs) as Hin by (apply list_elem_of_fmap; eauto).
    rewrite Hkeys in Hin. apply list_elem_of_fmap in Hin as (m & -> & Hm).
    apply list_elem_of_filter in Hm as [Hnone Hm]. by apply Hfree.
Qed.

Lemma tag_address_witness :
  fac_address
    <$> (node_to_medical_facility Demo.shibuya
           [Demo.clinic; Demo.pharmacy; Demo.hospital] "Shibuya" None None
           initial_world).1 !! 0%nat
  = Some (Some "1-2-3 Dogenzaka, Shibuya").
Proof.
  apply (tag_address_kept Demo.shibuya
           [Demo.clinic; Demo.pharmacy; Demo.hospital] "Shibuya" None None
           initial_world 0 Demo.clinic "1-2-3 Dogenzaka, Shibuya").
  - reflexivity.
  - reflexivity.
  - intros m Hm Hnone.
    apply elem_of_cons in Hm as [->|Hm]; [discriminate Hnone|].
    apply elem_of_cons in Hm as [->|Hm]; [discriminate Hnone|].
    apply list_elem_of_singleton in Hm as ->. reflexivity.
Defined.

(** ** The query functions, continued *)

Lemma map_const_Forall {A B C : Type} (f : A → B) (c : B) (l : list A)
    (l' : list C) :
  map f l = map (λ _, c) l' → Forall (λ x, f x = c) l.
Proof.
  revert l'. induction l as [|x l IH]; intros [|y l']; simpl; try done.
  intros [= Hx Hl]. constructor; [done|]. by eapply IH.
Qed.

Lemma node_to_medical_facility_found_in (ext : externals)
    (nodes : list node) (found_in : string) (ref_lat ref_lon : option Q)
    (w : world) :
  Forall (λ f, fac_found_in f = found_in)
    (node_to_medical_facility ext nodes found_in ref_lat ref_lon w).1.
Proof.
  unfold node_to_medical_facility.
  destruct (run_tasks ext _ w) as [rs w1]. simpl.
  apply (map_const_Forall fac_found_in found_in _ nodes).
  rewrite apply_results_map by done. by rewrite map_map.
Qed.

(** Lines 123, 147, 169.  Every facility a query function returns carries
    the label of its stage in [found_in]: the area name for the named-area
    query, "bounding box" for the bounding-box query, and for the radius
    query, with a radius of less than 10^15 metres either way, "within R
    km", [R] being the radius divided by 1000 as Python prints it: "within
    5.0 km" to "within 50.0 km" for the radii of the search. *)
Theorem found_in_names_the_stage (ext : externals) (w : world) :
  (∀ area_name parent_area,
     Forall (λ f, fac_found_in f = area_name)
       (query_hospitals_in_area ext area_name parent_area w).1) ∧
  (∀ lat lon delta,
     Forall (λ f, fac_found_in f = "bounding box")
       (query_hospitals_in_bbox ext lat lon delta w).1) ∧
  (∀ lat lon radius,
     label_range radius →
     Forall (λ f, fac_found_in f = within_label radius)
       (query_hospitals_around ext lat lon radius w).1) ∧
  map within_label radii
  = ["within 5.0 km"; "within 10.0 km"; "within 15.0 km"; "within 20.0 km";
     "within 25.0 km"; "within 30.0 km"; "within 35.0 km"; "within 40.0 km";
     "within 45.0 km"; "within 50.0 km"].
Proof.
  split; [|split; [|split; [|reflexivity]]].
  - intros a p. unfold query_hospitals_in_area.
    destruct (api_query ext (calls w) _); [|constructor].
    apply node_to_medical_facility_found_in.
  - intros lat lon delta. unfold query_hospitals_in_bbox. simpl.
    destruct (api_query ext (calls w) _); [|constructor].
    apply node_to_medical_facility_found_in.
  - intros lat lon radius _. unfold query_hospitals_around.
    destruct (api_query ext (calls w) _); [|constructor].
    pose proof (node_to_medical_facility_found_in ext nodes
      (within_label radius) (Some lat) (Some lon)
      (record_call (EvQuery (QAround radius lat lon) (OvResult nodes)) w))
      as H.
    destruct (node_to_medical_facility ext nodes _ _ _ _) as [hs w2].
    simpl in *. by rewrite list_sort_perm.
Qed.

(** Lines 167-172.  When the backend answers, the radius query returns the
    enriched facilities, all of them and each once, one for each node, in
    ascending order of the key of line 170. *)
Theorem radius_query_sorts_without_loss (ext : externals) (lat lon : Q)
    (radius : Z) (w : world) (nodes : list node) :
  api_query ext (calls w) (QAround radius lat lon) = OvResult nodes →
  (query_hospitals_around ext lat lon radius w).1
  ≡ₚ (node_to_medical_facility ext nodes (within_label radius)
        (Some lat) (Some lon)
        (record_call (EvQuery (QAround radius lat lon) (OvResult nodes)) w)).1
  ∧ length (query_hospitals_around ext lat lon radius w).1 = length nodes
  ∧ sorted_by distance_key (query_hospitals_around ext lat lon radius w).1.
Proof.
  intros Hq. unfold query_hospitals_around. rewrite Hq.
  pose proof (apply_results_length) as Hlen.
  unfold node_to_medical_facility.
  destruct (run_tasks ext _ _) as [rs w1]. simpl.
  split; [apply list_sort_perm|]. split.
  - by rewrite list_sort_length, apply_results_length, length_map.
  - apply list_sort_sorted.
Qed.

Lemma radius_query_witness :
  length (query_hospitals_around Demo.third_ring (3566 # 100) (1397 # 10)
            15000 initial_world).1 = 3%nat.
Proof.
  destruct (radius_query_sorts_without_loss Demo.third_ring
              (3566 # 100) (1397 # 10) 15000 initial_world
              [Demo.hospital; Demo.clinic; Demo.pharmacy])
    as (_ & Hlen & _).
  - reflexivity.
  - exact Hlen.
Defined.

(** Lines 179-195.  What [get_coords] returns is what the cache holds for
    the address afterwards: the coordinates when they were found now or
    before, and [None], with nothing stored, when the lookup failed. *)
Theorem get_coords_returns_cache_content (ext : externals)
    (area_name district state country : string) (w : world) :
  (get_coords ext area_name district state country w).1
  = coords_cache (get_coords ext area_name district state country w).2
    !! full_address_of area_name district state country.
Proof.
  unfold get_coords.
  destruct (coords_cache w !! _) as [c|] eqn:Hc; simpl; [done|].
  destruct (geocode ext (calls w) _); simpl; [|done..].
  by rewrite lookup_insert_eq.
Qed.

(** ** The address filter, continued *)

(** Line 202.  [filter_by_address] raises, an [AttributeError], exactly when
    one of the facilities has no address; the area name and the addresses of
    the others make no difference. *)
Theorem filter_by_address_raises_iff (ext : externals)
    (hospitals : list facility) (area_name : string) :
  filter_by_address ext hospitals area_name = Raised AttributeError ↔
  ∃ h, h ∈ hospitals ∧ fac_address h = None.
Proof.
  induction hospitals as [|h hs IH]; simpl.
  - split; [done|]. intros (h & Hin & _). by apply elem_of_nil in Hin.
  - destruct (fac_address h) as [a|] eqn:Ha.
    + destruct (filter_by_address ext hs area_name) as [r|[]].
      * split; [done|]. intros (h' & Hin & Hnone).
        apply elem_of_cons in Hin as [->|Hin]; [congruence|].
        destruct IH as [_ IH]. by discriminate IH; eauto.
      * split; [|done]. intros _. destruct IH as [IH _].
        destruct (IH eq_refl) as (h' & Hin & Hnone).
        exists h'. split; [by apply list_elem_of_further | done].
    + split; [|done]. intros _. exists h.
      split; [apply list_elem_of_here | done].
Qed.

(** Lines 199-204.  Filtering twice is filtering once: what the filter
    returns passes the same filter unchanged. *)
Theorem filter_by_address_idempotent (ext : externals)
    (hospitals filtered : list facility) (area_name : string) :
  filter_by_address ext hospitals area_name = Ok filtered →
  filter_by_address ext filtered area_name = Ok filtered.
Proof.
  revert filtered. induction hospitals as [|h hs IH]; intros filtered; simpl.
  - by intros [= <-].
  - destruct (fac_address h) as [a|] eqn:Ha; [|done].
    destruct (filter_by_address ext hs area_name) as [r|e]; [|done].
    specialize (IH r eq_refl).
    destruct (substring_in _ _) eqn:Hm; intros [= <-]; [|done].
    simpl. by rewrite Ha, IH, Hm.
Qed.

Lemma filter_by_address_idempotent_witness :
  filter_by_address Demo.shibuya
    (map (make_facility Demo.shibuya "Tokyo" None None) [Demo.clinic])
    "dogenzaka"
  = Ok (map (make_facility Demo.shibuya "Tokyo" None None) [Demo.clinic]).
Proof.
  apply (filter_by_address_idempotent Demo.shibuya
           (map (make_facility Demo.shibuya "Tokyo" None None)
                [Demo.clinic; Demo.pharmacy])).
  reflexivity.
Defined.

(** ** What a search does to the world *)

Lemma grows_refl (w : world) : grows w w.
Proof. by repeat split. Qed.

Lemma grows_trans (w1 w2 w3 : world) :
  grows w1 w2 → grows w2 w3 → grows w1 w3.
Proof.
  intros (A1 & B1 & C1) (A2 & B2 & C2).
  repeat split; by etrans.
Qed.

Lemma grows_record_call (e : event) (w : world) :
  grows w (record_call e w).
Proof. repeat split; try done. simpl. by apply prefix_app_r. Qed.

Lemma grows_fetch_reverse_geocode (ext : externals) (c : coords)
    (w : world) :
  grows w (fetch_reverse_geocode ext c w).2.
Proof.
  unfold fetch_reverse_geocode. destruct c as [lat lon].
  destruct (reverse_cache w !! _) eqn:Hc; simpl; [apply grows_refl|].
  repeat split; simpl; [done | by apply insert_subseteq | by apply prefix_app_r].
Qed.

Lemma grows_run_tasks (ext : externals) (tasks : list coords) (w : world) :
  grows w (run_tasks ext tasks w).2.
Proof.
  revert w. induction tasks as [|c tasks IH]; intros w; simpl.
  - apply grows_refl.
  - pose proof (grows_fetch_reverse_geocode ext c w) as H1.
    destruct (fetch_reverse_geocode ext c w) as [r w1].
    pose proof (IH w1) as H2.
    destruct (run_tasks ext tasks w1) as [rs w2]. simpl in *.
    by eapply grows_trans.
Qed.

Lemma grows_node_to_medical_facility (ext : externals) (nodes : list node)
    (found_in : string) (ref_lat ref_lon : option Q) (w : world) :
  grows w (node_to_medical_facility ext nodes found_in ref_lat ref_lon w).2.
Proof.
  unfold node_to_medical_facility.
  pose proof (grows_run_tasks ext
    (coords_to_geocode (map (make_facility ext found_in ref_lat ref_lon) nodes))
    w) as H.
  by destruct (run_tasks ext _ w) as [rs w1].
Qed.

Lemma grows_query_hospitals_in_area (ext : externals)
    (area_name parent_area : string) (w : world) :
  grows w (query_hospitals_in_area ext area_name parent_area w).2.
Proof.
  unfold query_hospitals_in_area.
  destruct (api_query ext (calls w) _); [|apply grows_record_call].
  eapply grows_trans; [apply grows_record_call|].
  apply grows_node_to_medical_facility.
Qed.

Lemma grows_query_hospitals_in_bbox (ext : externals) (lat lon delta : Q)
    (w : world) :
  grows w (query_hospitals_in_bbox ext lat lon delta w).2.
Proof.
  unfold query_hospitals_in_bbox. simpl.
  destruct (api_query ext (calls w) _); [|apply grows_record_call].
  eapply grows_trans; [apply grows_record_call|].
  apply grows_node_to_medical_facility.
Qed.

Lemma grows_query_hospitals_around (ext : externals) (lat lon : Q)
    (radius : Z) (w : world) :
  grows w (query_hospitals_around ext lat lon radius w).2.
Proof.
  unfold query_hospitals_around.
  destruct (api_query ext (calls w) _); [|apply grows_record_call].
  eapply grows_trans; [apply grows_record_call|].
  pose proof (grows_node_to_medical_facility ext nodes (within_label radius)
    (Some lat) (Some lon)
    (record_call (EvQuery (QAround radius lat lon) (OvResult nodes)) w)) as H.
  by destruct (node_to_medical_facility ext nodes _ _ _ _) as [hs w2].
Qed.

Lemma grows_get_coords (ext : externals)
    (area_name district state country : string) (w : world) :
  grows w (get_coords ext area_name district state country w).2.
Proof.
  unfold get_coords.
  destruct (coords_cache w !! _) eqn:Hc; simpl; [apply grows_refl|].
  destruct (geocode ext (calls w) _); simpl;
    try apply grows_record_call.
  repeat split; simpl; [by apply insert_subseteq | done | by apply prefix_app_r].
Qed.

Lemma grows_radius_loop (ext : externals) (fuel : nat) (lat lon : Q) (r : Z)
    (w : world) :
  grows w (radius_loop ext fuel lat lon r w).2.
Proof.
  revert r w. induction fuel as [|fuel IH]; intros r w; simpl;
    [apply grows_refl|].
  destruct (r <=? max_radius); [|apply grows_refl].
  pose proof (grows_query_hospitals_around ext lat lon r w) as H1.
  destruct (query_hospitals_around ext lat lon r w) as [[|h hs] w1];
    simpl in H1; [|done].
  eapply grows_trans; [exact H1 | apply IH].
Qed.

(** Lines 208-248, with all they call.  A search only adds to the world:
    every entry of the forward cache and of the reverse cache is still
    there afterwards with the value it had, and the calls made before are
    the beginning of the history afterwards.  No cache entry is ever
    removed or replaced. *)
Theorem search_only_adds (ext : externals)
    (country state district area_name : string) (w : world) :
  grows w (get_hospitals ext country state district area_name w).2.
Proof.
  assert (∀ w0, grows w0
            (parent_area_fallback ext state district area_name w0).2)
    as Hparent.
  { intros w0. rewrite parent_area_fallback_world.
    apply grows_query_hospitals_in_area. }
  unfold get_hospitals.
  pose proof (grows_query_hospitals_in_area ext area_name district w) as H1.
  destruct (query_hospitals_in_area ext area_name district w)
    as [[|h hs] w1]; simpl in H1; [|done].
  pose proof (grows_get_coords ext area_name district state country w1) as H2.
  destruct (get_coords ext area_name district state country w1)
    as [[[lat lon]|] w2]; simpl in H2.
  - pose proof (grows_query_hospitals_in_bbox ext lat lon (45 # 1000) w2)
      as H3.
    destruct (query_hospitals_in_bbox ext lat lon (45 # 1000) w2)
      as [[|h hs] w3]; simpl in H3.
    + pose proof (grows_radius_loop ext (radius_fuel 5000) lat lon 5000 w3)
        as H4.
      destruct (radius_loop ext (radius_fuel 5000) lat lon 5000 w3)
        as [[found|] w4]; simpl in H4.
      * eauto using grows_trans.
      * eapply grows_trans; [|apply Hparent]. eauto using grows_trans.
    + eauto using grows_trans.
  - eapply grows_trans; [|apply Hparent]. eauto using grows_trans.
Qed.

(** ** The calls a search makes *)

(** The radius queries of the loop: the radii in order, up to the one that
    found something, or all of them. *)
Lemma radius_loop_queries (ext : externals) (fuel : nat) (lat lon : Q)
    (r : Z) (w : world) :
  ∃ k, overpass_queries (calls (radius_loop ext fuel lat lon r w).2)
       = overpass_queries (calls w)
         ++ map (λ r', QAround r' lat lon) (take k (radii_tried fuel r)) ∧
       geocoder_requests (calls (radius_loop ext fuel lat lon r w).2)
       = geocoder_requests (calls w) ∧
       ((radius_loop ext fuel lat lon r w).1 = None →
        take k (radii_tried fuel r) = radii_tried fuel r).
Proof.
  revert r w. induction fuel as [|fuel IH]; intros r w; simpl.
  - exists 0%nat. by rewrite app_nil_r.
  - destruct (r <=? max_radius).
    + pose proof (query_hospitals_around_effect ext lat lon r w) as He.
      apply one_query_queries in He as [Hq Hg].
      destruct (query_hospitals_around ext lat lon r w) as [[|h hs] w1];
        simpl in Hq, Hg.
      * destruct (IH (r + radius_step) w1) as (k & Hk & Hkg & Hnone).
        exists (S k). rewrite Hk, Hkg, Hq, Hg, <-app_assoc. simpl.
        split; [done|]. split; [done|]. intros H. by rewrite (Hnone H).
      * exists 1%nat. simpl. rewrite Hq, Hg, take_0. done.
    + exists 0%nat. by rewrite app_nil_r.
Qed.

Lemma get_coords_requests (ext : externals)
    (area_name district state country : string) (w : world) :
  geocoder_requests
    (calls (get_coords ext area_name district state country w).2)
  = geocoder_requests (calls w)
    ++ match coords_cache w !! full_address_of area_name district state country
       with
       | Some _ => []
       | None => [full_address_of area_name district state country]
       end.
Proof.
  unfold get_coords.
  destruct (coords_cache w !! _); simpl; [by rewrite app_nil_r|].
  unfold geocoder_requests.
  destruct (geocode ext (calls w) _); simpl; by rewrite omap_app.
Qed.

Lemma radius_loop_found_nonempty (ext : externals) (fuel : nat)
    (lat lon : Q) (r : Z) (w w' : world) :
  radius_loop ext fuel lat lon r w ≠ (Some [], w').
Proof.
  revert r w. induction fuel as [|fuel IH]; intros r w; simpl; [done|].
  destruct (r <=? max_radius); [|done].
  destruct (query_hospitals_around ext lat lon r w) as [[|h hs] w1];
    [apply IH | done].
Qed.

(** What a search asks of the outside, stage by stage. *)
Lemma get_hospitals_calls (ext : externals)
    (country state district area_name : string) (w : world) :
  let w1 := (query_hospitals_in_area ext area_name district w).2 in
  let c := (get_coords ext area_name district state country w1).1 in
  ∃ qs reqs,
    overpass_queries
      (calls (get_hospitals ext country state district area_name w).2)
    = overpass_queries (calls w) ++ qs ∧
    geocoder_requests
      (calls (get_hospitals ext country state district area_name w).2)
    = geocoder_requests (calls w) ++ reqs ∧
    qs ≠ [] ∧
    qs `prefix_of` query_ladder area_name district state c ∧
    (reqs = [] ∨
     reqs = [full_address_of area_name district state country]) ∧
    ((get_hospitals ext country state district area_name w).1 = Ok [] →
     qs = query_ladder area_name district state c).
Proof.
  intros w1 c. unfold query_ladder.
  assert (∀ w0,
    overpass_queries
      (calls (parent_area_fallback ext state district area_name w0).2)
    = overpass_queries (calls w0) ++ [QArea district state] ∧
    geocoder_requests
      (calls (parent_area_fallback ext state district area_name w0).2)
    = geocoder_requests (calls w0)) as Hparent.
  { intros w0. rewrite parent_area_fallback_world.
    eapply one_query_queries, query_hospitals_in_area_effect. }
  unfold get_hospitals.
  pose proof (query_hospitals_in_area_effect ext area_name district w) as H1.
  apply one_query_queries in H1 as [Q1 G1]. fold w1 in Q1, G1.
  subst c. fold w1.
  destruct (query_hospitals_in_area ext area_name district w)
    as [[|h hs] w1'] eqn:E1; simpl in w1; subst w1.
  2:{ cbn [fst snd]. exists [QArea area_name district], [].
      rewrite Q1, G1, app_nil_r.
      split; [done|]. split; [done|]. split; [done|].
      split; [apply prefix_cons, prefix_nil|]. split; [by left | done]. }
  pose proof (get_coords_queries ext area_name district state country w1')
    as Q2.
  pose proof (get_coords_requests ext area_name district state country w1')
    as G2.
  assert (∀ reqs0,
    reqs0 = match coords_cache w1'
                  !! full_address_of area_name district state country with
            | Some _ => []
            | None => [full_address_of area_name district state country]
            end →
    reqs0 = [] ∨ reqs0 = [full_address_of area_name district state country])
    as Hreqs.
  { intros reqs0 ->. destruct (coords_cache w1' !! _); auto. }
  destruct (get_coords ext area_name district state country w1')
    as [[[lat lon]|] w2]; simpl in Q2, G2; cbn [fst snd spatial_ladder].
  - pose proof (query_hospitals_in_bbox_effect ext lat lon (45 # 1000) w2)
      as H3.
    apply one_query_queries in H3 as [Q3 G3]. fold (bbox_query lat lon) in Q3.
    destruct (query_hospitals_in_bbox ext lat lon (45 # 1000) w2)
      as [[|h hs] w3]; simpl in Q3, G3.
    + destruct (radius_loop_queries ext (radius_fuel 5000) lat lon 5000 w3)
        as (k & Q4 & G4 & Hnone).
      rewrite radii_tried_all in Q4, Hnone.
      destruct (radius_loop ext (radius_fuel 5000) lat lon 5000 w3)
        as [[found|] w4] eqn:Hloop; simpl in Q4, G4, Hnone.
      * cbn [fst snd].
        exists (QArea area_name district :: bbox_query lat lon
                :: map (λ r', QAround r' lat lon) (take k radii)).
        eexists. rewrite Q4, Q3, Q2, Q1, G4, G3, G2, G1, <-!app_assoc.
        split; [done|]. split; [done|]. split; [done|].
        split; [|split; [by apply Hreqs|]].
        -- do 2 apply prefix_cons. apply prefix_app_r.
           rewrite <-(take_drop k radii) at 2. rewrite map_app.
           by apply prefix_app_r.
        -- intros [= ->]. by apply radius_loop_found_nonempty in Hloop.
      * destruct (Hparent w4) as [Q5 G5].
        exists (QArea area_name district :: bbox_query lat lon
                :: map (λ r', QAround r' lat lon) radii
                ++ [QArea district state]).
        eexists.
        rewrite Q5, Q4, Q3, Q2, Q1, G5, G4, G3, G2, G1, (Hnone eq_refl).
        rewrite <-!app_assoc.
        split; [done|]. split; [done|]. split; [done|].
        split; [done|]. split; [by apply Hreqs | done].
    + cbn [fst snd].
      exists [QArea area_name district; bbox_query lat lon]. eexists.
      rewrite Q3, Q2, Q1, G3, G2, G1, <-!app_assoc.
      split; [done|]. split; [done|]. split; [done|].
      split; [do 2 apply prefix_cons; apply prefix_nil|].
      split; [by apply Hreqs | done].
  - destruct (Hparent w2) as [Q5 G5].
    exists [QArea area_name district; QArea district state]. eexists.
    rewrite Q5, Q2, Q1, G5, G2, G1, <-!app_assoc.
    split; [done|]. split; [done|]. split; [done|].
    split; [done|]. split; [by apply Hreqs | done].
Qed.

(** Lines 208-248.  The Overpass queries of one search are a beginning, not
    empty, of a fixed ladder: the named-area query; then, if the place was
    geocoded, the bounding-box query and the radius queries for 5, 10, ...,
    50 km; then the district query.  So a search sends at most 13 queries,
    never a radius beyond 50 km, and never goes back to an earlier stage. *)
Theorem search_follows_the_ladder (ext : externals)
    (country state district area_name : string) (w : world) :
  ∃ qs,
    overpass_queries
      (calls (get_hospitals ext country state district area_name w).2)
    = overpass_queries (calls w) ++ qs ∧
    qs ≠ [] ∧
    qs `prefix_of`
      query_ladder area_name district state
        (get_coords ext area_name district state country
           (query_hospitals_in_area ext area_name district w).2).1 ∧
    (length qs ≤ 13)%nat.
Proof.
  destruct (get_hospitals_calls ext country state district area_name w)
    as (qs & reqs & Hq & _ & Hne & Hpre & _ & _).
  exists qs. repeat split; try done.
  apply prefix_length in Hpre. etrans; [exact Hpre|].
  unfold query_ladder.
  destruct (get_coords _ _ _ _ _ _).1 as [[lat lon]|]; simpl; lia.
Qed.

(** Lines 219-220.  A search asks the forward geocoder at most once, and
    then for the full address of the request: "area, district, state,
    country". *)
Theorem search_geocodes_at_most_once (ext : externals)
    (country state district area_name : string) (w : world) :
  ∃ reqs,
    geocoder_requests
      (calls (get_hospitals ext country state district area_name w).2)
    = geocoder_requests (calls w) ++ reqs ∧
    (reqs = [] ∨
     reqs = [full_address_of area_name district state country]).
Proof.
  destruct (get_hospitals_calls ext country state district area_name w)
    as (qs & reqs & _ & Hg & _ & _ & Hreqs & _).
  by exists reqs.
Qed.

Lemma radius_first_hit_witness :
  ∃ k : nat, k = 2%nat ∧ 5000 + Z.of_nat k * radius_step <= max_radius.
Proof.
  edestruct (radius_loop_first_hit Demo.third_ring (radius_fuel 5000)
               (3566 # 100) (1397 # 10) 5000 initial_world)
    as (k & ws & w0 & Hle & _ & _ & _ & _ & _ & _ & _ & _ & Hqs).
  - reflexivity.
  - exists k. split; [|exact Hle].
    apply (f_equal length) in Hqs.
    rewrite length_app, length_map, length_seq in Hqs.
    vm_compute in Hqs. by injection Hqs.
Defined.

(** ** When a search raises *)

Lemma filter_by_address_Raised (ext : externals) (hospitals : list facility)
    (area_name : string) (e : exn) :
  filter_by_address ext hospitals area_name = Raised e →
  ∃ h, h ∈ hospitals ∧ fac_address h = None.
Proof.
  induction hospitals as [|h hs IH]; simpl; [done|].
  destruct (fac_address h) as [a|] eqn:Ha.
  - destruct (filter_by_address ext hs area_name) as [r|e']; [done|].
    intros [= ->]. destruct (IH eq_refl) as (h' & Hin & Hnone).
    exists h'. split; [by apply list_elem_of_further | done].
  - intros _. exists h. split; [apply list_elem_of_here | done].
Qed.

(** Lines 208-248.  [get_hospitals] raises in one situation only: the
    named-area stage found nothing, no later stage returned before the
    parent-area stage, and the district query returned a facility without an
    address, on which line 202 fails.  A failing backend or geocoder never
    makes it raise. *)
Theorem search_raises_only_on_missing_address (ext : externals)
    (country state district area_name : string) (w w' : world) (e : exn) :
  get_hospitals ext country state district area_name w = (Raised e, w') →
  (query_hospitals_in_area ext area_name district w).1 = [] ∧
  ∃ w0 h, w' = (query_hospitals_in_area ext district state w0).2 ∧
          h ∈ (query_hospitals_in_area ext district state w0).1 ∧
          fac_address h = None.
Proof.
  assert (∀ w0, parent_area_fallback ext state district area_name w0
                = (Raised e, w') →
          ∃ w1 h, w' = (query_hospitals_in_area ext district state w1).2 ∧
                  h ∈ (query_hospitals_in_area ext district state w1).1 ∧
                  fac_address h = None) as Hparent.
  { intros w0. unfold parent_area_fallback.
    destruct (query_hospitals_in_area ext district state w0) as [hs w1]
      eqn:Hq.
    destruct (filter_by_address ext hs area_name) as [[|h r]|e'] eqn:Hf;
      [done..|].
    intros [= -> ->]. apply filter_by_address_Raised in Hf as (h & Hin & Hn).
    exists w0, h. by rewrite Hq. }
  unfold get_hospitals.
  destruct (query_hospitals_in_area ext area_name district w)
    as [[|h hs] w1]; [|done].
  destruct (get_coords ext area_name district state country w1)
    as [[[lat lon]|] w2].
  - destruct (query_hospitals_in_bbox ext lat lon (45 # 1000) w2)
      as [[|h hs] w3]; [|done].
    destruct (radius_loop ext (radius_fuel 5000) lat lon 5000 w3)
      as [[found|] w4]; [done|].
    intros H. split; [done|]. by eapply Hparent.
  - intros H. split; [done|]. by eapply Hparent.
Qed.

Lemma search_raises_witness :
  ∃ w0 h,
    h ∈ (query_hospitals_in_area Demo.one_building "Shibuya" "Tokyo" w0).1 ∧
    fac_address h = None.
Proof.
  edestruct (search_raises_only_on_missing_address Demo.one_building
               "Japan" "Tokyo" "Shibuya" "Dogenzaka" initial_world)
    as (_ & w0 & h & _ & Hin & Hnone).
  - reflexivity.
  - exists w0, h. split; [exact Hin | exact Hnone].
Defined.

(** ** The route *)

Lemma get_hospitals_all_raise (ext : externals)
    (country state district area_name : string) (w : world) :
  (∀ tr q, api_query ext tr q = OvRaise) →
  (get_hospitals ext country state district area_name w).1 = Ok [].
Proof.
  intros Hdown.
  assert (∀ w0,
    (parent_area_fallback ext state district area_name w0).1 = Ok [])
    as Hparent.
  { intros w0. unfold parent_area_fallback.
    by rewrite query_hospitals_in_area_raise by apply Hdown. }
  unfold get_hospitals.
  rewrite query_hospitals_in_area_raise by apply Hdown.
  destruct (get_coords ext area_name district state country _)
    as [[[lat lon]|] w2]; [|apply Hparent].
  rewrite query_hospitals_in_bbox_raise by apply Hdown.
  destruct (radius_loop_all_raise ext (radius_fuel 5000) lat lon 5000
              (record_call (EvQuery (bbox_query lat lon) OvRaise) w2) Hdown)
    as (w4 & H4 & _).
  unfold bbox_query in H4. rewrite H4. apply Hparent.
Qed.

(** [app.py], lines 12-15.  When the spatial backend fails on every query,
    the route answers 404 with the "No hospitals found" message, not 500:
    the failures are not told apart from an area without facilities. *)
Theorem route_backend_down_is_not_found (ext : externals)
    (country state district area : string) (w : world) :
  (∀ tr q, api_query ext tr q = OvRaise) →
  (hospitals ext country state district area w).1
  = (Message "No hospitals found in this area or nearby.", 404).
Proof.
  intros Hdown. unfold hospitals.
  pose proof (get_hospitals_all_raise ext country state district area w Hdown)
    as H.
  destruct (get_hospitals ext country state district area w) as [res w'].
  simpl in H. by rewrite H.
Qed.

Lemma route_backend_down_witness :
  (hospitals Demo.overpass_down "Japan" "Tokyo" "Shibuya" "Shibuya"
             initial_world).1
  = (Message "No hospitals found in this area or nearby.", 404).
Proof.
  apply (route_backend_down_is_not_found Demo.overpass_down
           "Japan" "Tokyo" "Shibuya" "Shibuya" initial_world).
  reflexivity.
Defined.

Lemma query_hospitals_in_area_found_in (ext : externals)
    (area_name parent_area : string) (w : world) :
  Forall (λ f, fac_found_in f = area_name)
    (query_hospitals_in_area ext area_name parent_area w).1.
Proof.
  unfold query_hospitals_in_area.
  destruct (api_query ext (calls w) _); [|constructor].
  apply node_to_medical_facility_found_in.
Qed.

(** [app.py], lines 13-22, with lines 213-217 and 123 of the search.  When
    the named-area query finds facilities, the route answers 200 with that
    list and the message "Found N hospitals in AREA", [N] being the length
    of the list. *)
Theorem route_named_area_message (ext : externals)
    (country state district area : string) (w w' : world)
    (hospital_data : list facility) :
  query_hospitals_in_area ext area district w = (hospital_data, w') →
  hospital_data ≠ [] →
  hospitals ext country state district area w
  = ((Hospitals hospital_data
        ("Found " +:+ len_str hospital_data +:+ " hospitals in " +:+ area),
      200), w').
Proof.
  intros Hq Hne.
  pose proof (query_hospitals_in_area_found_in ext area district w) as Hlabel.
  unfold hospitals, get_hospitals. rewrite Hq in *. simpl in Hlabel.
  destruct hospital_data as [|first rest]; [done|].
  apply Forall_cons in Hlabel as [-> _]. by rewrite String.eqb_refl.
Qed.

Lemma route_named_area_witness :
  (hospitals Demo.shibuya "Japan" "Tokyo" "Shibuya" "Shibuya"
             initial_world).1.2 = 200.
Proof.
  rewrite (route_named_area_message Demo.shibuya
             "Japan" "Tokyo" "Shibuya" "Shibuya" initial_world
             (query_hospitals_in_area Demo.shibuya "Shibuya" "Shibuya"
                                      initial_world).2
             (query_hospitals_in_area Demo.shibuya "Shibuya" "Shibuya"
                                      initial_world).1).
  - reflexivity.
  - reflexivity.
  - vm_compute. discriminate.
Defined.

(** ** More on the stages *)

(** Lines 208-248.  An empty answer comes only after the whole ladder: when
    [get_hospitals] returns the empty list, it has sent the named-area
    query, then, if the place was geocoded, the bounding-box query and all
    ten radius queries, and at last the district query. *)
Theorem empty_answer_after_whole_ladder (ext : externals)
    (country state district area_name : string) (w : world) :
  (get_hospitals ext country state district area_name w).1 = Ok [] →
  overpass_queries
    (calls (get_hospitals ext country state district area_name w).2)
  = overpass_queries (calls w)
    ++ query_ladder area_name district state
         (get_coords ext area_name district state country
            (query_hospitals_in_area ext area_name district w).2).1.
Proof.
  intros Hempty.
  destruct (get_hospitals_calls ext country state district area_name w)
    as (qs & reqs & Hq & _ & _ & _ & _ & Hall).
  by rewrite Hq, (Hall Hempty).
Qed.

Lemma empty_answer_witness :
  length (overpass_queries
            (calls (get_hospitals Demo.geocoder_up "Japan" "Tokyo" "Shibuya"
                                  "Shibuya" initial_world).2)) = 13%nat.
Proof.
  rewrite (empty_answer_after_whole_ladder Demo.geocoder_up
             "Japan" "Tokyo" "Shibuya" "Shibuya" initial_world).
  - reflexivity.
  - reflexivity.
Defined.

(** Lines 219-225.  A bounding-box hit is returned whole: when the named
    area gives nothing, the place is geocoded and the bounding-box query
    finds facilities, [get_hospitals] returns that list as it is, neither
    sorted nor cut to ten records as the radius stage's is, and sends no
    further query. *)
Theorem bounding_box_hit_returned_whole (ext : externals)
    (country state district area_name : string) (lat lon : Q)
    (w w1 w2 w3 : world) (found : list facility) :
  query_hospitals_in_area ext area_name district w = ([], w1) →
  get_coords ext area_name district state country w1 = (Some (lat, lon), w2) →
  query_hospitals_in_bbox ext lat lon (45 # 1000) w2 = (found, w3) →
  found ≠ [] →
  get_hospitals ext country state district area_name w = (Ok found, w3) ∧
  overpass_queries (calls w3)
  = overpass_queries (calls w)
    ++ [QArea area_name district; bbox_query lat lon].
Proof.
  intros H1 H2 H3 Hne. split.
  - unfold get_hospitals. rewrite H1, H2, H3. by destruct found.
  - pose proof (query_hospitals_in_area_effect ext area_name district w) as E1.
    pose proof (get_coords_queries ext area_name district state country w1)
      as E2.
    pose proof (query_hospitals_in_bbox_effect ext lat lon (45 # 1000) w2)
      as E3.
    rewrite H1 in E1. rewrite H2 in E2. rewrite H3 in E3. simpl in E1, E2, E3.
    apply one_query_queries in E1 as [E1 _].
    apply one_query_queries in E3 as [E3 _].
    unfold bbox_query. rewrite E3, E2, E1. by rewrite <-app_assoc.
Qed.

Lemma bounding_box_hit_witness :
  ∃ found,
    (get_hospitals Demo.in_the_box "Japan" "Tokyo" "Shibuya" "Dogenzaka"
                   initial_world).1 = Ok found ∧
    length found = 3%nat.
Proof.
  edestruct (bounding_box_hit_returned_whole Demo.in_the_box
               "Japan" "Tokyo" "Shibuya" "Dogenzaka" (3566 # 100) (1397 # 10)
               initial_world) as [Hres _].
  - reflexivity.
  - reflexivity.
  - reflexivity.
  - vm_compute. discriminate.
  - rewrite Hres. eexists. split; reflexivity.
Defined.

(** ** The reverse cache across enrichments *)

Lemma run_tasks_all_cached (ext : externals) (tasks : list coords)
    (w : world) :
  Forall (λ c, is_Some (reverse_cache w !! cache_key c)) tasks →
  (run_tasks ext tasks w).2 = w.
Proof.
  induction 1 as [|c tasks [a Hc] _ IH]; simpl; [done|].
  assert (fetch_reverse_geocode ext c w = ((c, a), w)) as ->.
  { unfold fetch_reverse_geocode. destruct c as [lat lon]. by rewrite Hc. }
  destruct (run_tasks ext tasks w) as [rs w2]. by simpl in *.
Qed.

Lemma run_tasks_caches_all (ext : externals) (tasks : list coords)
    (w : world) :
  Forall (λ c, is_Some (reverse_cache (run_tasks ext tasks w).2
                          !! cache_key c)) tasks.
Proof.
  revert w. induction tasks as [|c tasks IH]; intros w; simpl; [done|].
  pose proof (fetch_reverse_geocode_address ext c w) as (_ & Hc & _).
  destruct (fetch_reverse_geocode ext c w) as [r w1]. simpl in Hc.
  pose proof (IH w1) as Hrest.
  pose proof (grows_run_tasks ext tasks w1) as (_ & Hsub & _).
  destruct (run_tasks ext tasks w1) as [rs w2]. simpl in *.
  constructor; [|done].
  exists r.2. by eapply lookup_weaken.
Qed.

(** Lines 35-53 and 91-101.  Nodes that were enriched once cost no service
    call when they are enriched again, in the same search or a later one,
    with whatever label and reference point: every address that was missing
    is in the reverse cache, also the ones made up after a failure. *)
Theorem enriching_again_calls_nothing (ext : externals) (nodes : list node)
    (found_in found_in' : string) (ref_lat ref_lon ref_lat' ref_lon' : option Q)
    (w : world) :
  let w1 :=
    (node_to_medical_facility ext nodes found_in ref_lat ref_lon w).2 in
  (node_to_medical_facility ext nodes found_in' ref_lat' ref_lon' w1).2 = w1.
Proof.
  unfold node_to_medical_facility.
  pose proof (run_tasks_caches_all ext
    (coords_to_geocode (map (make_facility ext found_in ref_lat ref_lon) nodes))
    w) as Hcached.
  destruct (run_tasks ext _ w) as [rs w1]. simpl in *.
  rewrite coords_to_geocode_nodes in Hcached.
  pose proof (run_tasks_all_cached ext
    (coords_to_geocode
       (map (make_facility ext found_in' ref_lat' ref_lon') nodes)) w1) as H.
  rewrite coords_to_geocode_nodes in H. specialize (H Hcached).
  rewrite coords_to_geocode_nodes.
  by destruct (run_tasks ext _ w1) as [rs' w2].
Qed.

(** ** A failing backend *)

(** [get_hospitals], lines 208-248, is the named-area stage followed by the
    rest of the search. *)
Lemma get_hospitals_from_stages (ext : externals)
    (country state district area_name : string) (w : world) :
  get_hospitals ext country state district area_name w
  = match query_hospitals_in_area ext area_name district w with
    | ((_ :: _) as hospitals, w1) => (Ok hospitals, w1)
    | ([], w1) =>
        geocode_and_later_stages ext country state district area_name w1
    end.
Proof.
  unfold get_hospitals, geocode_and_later_stages, radius_and_parent_stages.
  destruct (query_hospitals_in_area ext area_name district w)
    as [[|h hs] w1]; [|done].
  destruct (get_coords ext area_name district state country w1)
    as [[[lat lon]|] w2]; [|done].
  by destruct (query_hospitals_in_bbox ext lat lon (45 # 1000) w2)
    as [[|h hs] w3].
Qed.

Lemma get_hospitals_Raised (ext : externals)
    (country state district area_name : string) (w w' : world) (e : exn) :
  get_hospitals ext country state district area_name w = (Raised e, w') →
  ∃ w0 h, w' = (query_hospitals_in_area ext district state w0).2 ∧
          h ∈ (query_hospitals_in_area ext district state w0).1 ∧
          fac_address h = None.
Proof.
  assert (∀ w0, parent_area_fallback ext state district area_name w0
                = (Raised e, w') →
          ∃ w1 h, w' = (query_hospitals_in_area ext district state w1).2 ∧
                  h ∈ (query_hospitals_in_area ext district state w1).1 ∧
                  fac_address h = None) as Hparent.
  { intros w0. unfold parent_area_fallback.
    destruct (query_hospitals_in_area ext district state w0) as [hs w1]
      eqn:Hq.
    destruct (filter_by_address ext hs area_name) as [[|h r]|e'] eqn:Hf;
      [done..|].
    intros [= -> ->]. apply filter_by_address_Raised in Hf as (h & Hin & Hn).
    exists w0, h. by rewrite Hq. }
  unfold get_hospitals.
  destruct (query_hospitals_in_area ext area_name district w)
    as [[|h hs] w1]; [|done].
  destruct (get_coords ext area_name district state country w1)
    as [[[lat lon]|] w2]; [|apply Hparent].
  destruct (query_hospitals_in_bbox ext lat lon (45 # 1000) w2)
    as [[|h hs] w3]; [|done].
  destruct (radius_loop ext (radius_fuel 5000) lat lon 5000 w3)
    as [[found|] w4]; [done | apply Hparent].
Qed.

(** C5.  A query on which the backend raises is a stage without results,
    whichever query it is and whatever the other queries do.  Each of the
    three query functions then returns the empty list and adds only the
    failed call to the history.  [get_hospitals], which is the named-area
    stage followed by the rest of the search, goes on as after an empty
    stage: a failed named-area query is followed by geocoding and what comes
    after it, a failed bounding-box query by the radius loop, a failed
    radius query by the next radius, and after a failed district query the
    search ends with the empty list.  And when [get_hospitals] does raise,
    no failed query is behind it: the district query was answered, with a
    facility that has no address. *)
Theorem backend_failure_is_an_empty_stage (ext : externals)
    (country state district area_name : string) :
  (∀ a p w,
     api_query ext (calls w) (QArea a p) = OvRaise →
     query_hospitals_in_area ext a p w
     = ([], record_call (EvQuery (QArea a p) OvRaise) w)) ∧
  (∀ lat lon delta w,
     api_query ext (calls w)
       (QBBox (lat - delta) (lon - delta) (lat + delta) (lon + delta))
     = OvRaise →
     query_hospitals_in_bbox ext lat lon delta w
     = ([], record_call
              (EvQuery (QBBox (lat - delta) (lon - delta)
                              (lat + delta) (lon + delta)) OvRaise) w)) ∧
  (∀ lat lon radius w,
     api_query ext (calls w) (QAround radius lat lon) = OvRaise →
     query_hospitals_around ext lat lon radius w
     = ([], record_call (EvQuery (QAround radius lat lon) OvRaise) w)) ∧
  (∀ w,
     get_hospitals ext country state district area_name w
     = match query_hospitals_in_area ext area_name district w with
       | ((_ :: _) as hospitals, w1) => (Ok hospitals, w1)
       | ([], w1) =>
           geocode_and_later_stages ext country state district area_name w1
       end) ∧
  (∀ w,
     api_query ext (calls w) (QArea area_name district) = OvRaise →
     get_hospitals ext country state district area_name w
     = geocode_and_later_stages ext country state district area_name
         (record_call (EvQuery (QArea area_name district) OvRaise) w)) ∧
  (∀ w w1 w2 lat lon,
     query_hospitals_in_area ext area_name district w = ([], w1) →
     get_coords ext area_name district state country w1
     = (Some (lat, lon), w2) →
     api_query ext (calls w2) (bbox_query lat lon) = OvRaise →
     get_hospitals ext country state district area_name w
     = radius_and_parent_stages ext state district area_name lat lon
         (record_call (EvQuery (bbox_query lat lon) OvRaise) w2)) ∧
  (∀ fuel lat lon r w,
     r <= max_radius →
     api_query ext (calls w) (QAround r lat lon) = OvRaise →
     radius_loop ext (S fuel) lat lon r w
     = radius_loop ext fuel lat lon (r + radius_step)
         (record_call (EvQuery (QAround r lat lon) OvRaise) w)) ∧
  (∀ w,
     api_query ext (calls w) (QArea district state) = OvRaise →
     parent_area_fallback ext state district area_name w
     = (Ok [], record_call (EvQuery (QArea district state) OvRaise) w)) ∧
  (∀ w e w',
     get_hospitals ext country state district area_name w = (Raised e, w') →
     ∃ w0 nodes h,
       api_query ext (calls w0) (QArea district state) = OvResult nodes ∧
       w' = (query_hospitals_in_area ext district state w0).2 ∧
       h ∈ (query_hospitals_in_area ext district state w0).1 ∧
       fac_address h = None).
Proof.
  split; [intros; by apply query_hospitals_in_area_raise|].
  split; [intros; by apply query_hospitals_in_bbox_raise|].
  split; [intros; by apply query_hospitals_around_raise|].
  split; [intros; apply get_hospitals_from_stages|].
  split; [|split; [|split; [|split]]].
  - intros w Hraise.
    by rewrite get_hospitals_from_stages, query_hospitals_in_area_raise.
  - intros w w1 w2 lat lon H1 H2 Hraise.
    rewrite get_hospitals_from_stages, H1.
    unfold geocode_and_later_stages. rewrite H2.
    unfold bbox_query in *.
    by rewrite query_hospitals_in_bbox_raise.
  - intros fuel lat lon r w Hr Hraise. simpl.
    apply Z.leb_le in Hr. rewrite Hr.
    by rewrite query_hospitals_around_raise.
  - intros w Hraise. unfold parent_area_fallback.
    by rewrite query_hospitals_in_area_raise.
  - intros w e w' Hres.
    destruct (get_hospitals_Raised ext country state district area_name
                w w' e Hres) as (w0 & h & Hw' & Hin & Hnone).
    destruct (api_query ext (calls w0) (QArea district state))
      as [nodes|] eqn:Hq.
    + by exists w0, nodes, h.
    + rewrite query_hospitals_in_area_raise in Hin by done.
      by apply elem_of_nil in Hin.
Qed.

Lemma backend_failure_witness :
  get_hospitals Demo.on_the_spot "Japan" "Tokyo" "Shibuya" "Shibuya Clinic"
                initial_world
  = radius_and_parent_stages Demo.on_the_spot "Tokyo" "Shibuya"
      "Shibuya Clinic" (35 # 1) (139 # 1)
      (record_call (EvQuery (bbox_query (35 # 1) (139 # 1)) OvRaise)
         (get_coords Demo.on_the_spot "Shibuya Clinic" "Shibuya" "Tokyo"
            "Japan"
            (query_hospitals_in_area Demo.on_the_spot "Shibuya Clinic"
               "Shibuya" initial_world).2).2).
Proof.
  destruct (backend_failure_is_an_empty_stage Demo.on_the_spot
              "Japan" "Tokyo" "Shibuya" "Shibuya Clinic")
    as (_ & _ & _ & _ & _ & Hbbox & _).
  apply (Hbbox initial_world
           (query_hospitals_in_area Demo.on_the_spot "Shibuya Clinic"
              "Shibuya" initial_world).2); reflexivity.
Defined.
